(** * trimerge-sync: the in-memory store and the SQLite document store

    A shallow embedding of
    - [packages/trimerge-sync/src/testLib/MemoryStore.ts] (class [MemoryStore]),
    - the SQLite-backed [DocStore] of the server package,
    and the properties of their operations.

    Conventions of the embedding.
    - A JavaScript string is a [string] (a sequence of code units below 256).
    - [undefined] in an optional position is [None].
    - A [Set<string>] that is only tested and extended is a [gset string];
      the one set whose iteration order is observed ([refs] in [addCommits],
      read back with [Array.from]) is a duplicate-free list in insertion
      order.
    - Array lengths and indices are [nat]; the result of [parseInt] is an
      [option Z] where [None] stands for [NaN].  Integers are exact: an array
      length is below 2^32, far below the 2^53 limit of exact doubles, and
      [Array.prototype.slice] only compares its argument with the length.
    - Every operation of [MemoryStore] runs as one task of the store's
      [PromiseQueue], and the queue runs one task at a time: a task is one
      atomic transition of the store. *)

From Stdlib Require Import Ascii String ZArith Lia Sorted.
From stdpp Require Import gmap strings list pretty.
From Equations Require Import Equations.

#[local] Set Warnings "-clear-no-such-hyp".

Local Open Scope string_scope.
Local Open Scope nat_scope.
Local Open Scope list_scope.

(** ** JavaScript primitives used by the stores *)

Module Js.

(** Outcome of a call: a value, or a thrown [Error] with its message. *)
Inductive outcome (A : Type) : Type :=
| Ok (a : A)
| Throw (message : string).
Arguments Ok {A} a.
Arguments Throw {A} message.

Definition is_throw {A} (o : outcome A) : bool :=
  match o with Ok _ => false | Throw _ => true end.

(** The digit of [Number.prototype.toString(36)] for a value below 36:
    [0-9] then [a-z]. *)
Definition digit36 (d : nat) : ascii :=
  if d <? 10 then ascii_of_nat (48 + d) else ascii_of_nat (87 + d).

(** Digits of [n] in radix 36, most significant first, in front of [acc]. *)
Equations? toString36_digits (n : nat) (acc : string) : string by wf n lt :=
  toString36_digits n acc with lt_dec n 36 => {
    | left _ := String (digit36 n) acc;
    | right _ := toString36_digits (n / 36) (String (digit36 (n mod 36)) acc) }.
Proof. exact (Nat.div_lt n 36 ltac:(lia) ltac:(lia)). Qed.

(** [n.toString(36)] for a non-negative integer [n]. *)
Definition toString36 (n : nat) : string := toString36_digits n "".

(** Value of a radix-36 digit; letters in either case. *)
Definition digit_value36 (c : ascii) : option nat :=
  let n := nat_of_ascii c in
  if (48 <=? n) && (n <=? 57) then Some (n - 48)
  else if (97 <=? n) && (n <=? 122) then Some (n - 87)
  else if (65 <=? n) && (n <=? 90) then Some (n - 55)
  else None.

(** White space skipped by [parseInt]: TAB, LF, VT, FF, CR, SPACE, NBSP
    (the white space and line terminator code points below 256). *)
Definition is_white_space (c : ascii) : bool :=
  let n := nat_of_ascii c in
  ((9 <=? n) && (n <=? 13)) || (n =? 32) || (n =? 160).

Fixpoint skip_white_space (s : string) : string :=
  match s with
  | String c s' => if is_white_space c then skip_white_space s' else s
  | EmptyString => s
  end.

(** The longest prefix of radix-36 digits, accumulated; [None] while no
    digit has been read. *)
Fixpoint parse_digits36 (s : string) (acc : option nat) : option nat :=
  match s with
  | String c s' =>
      match digit_value36 c with
      | Some d => parse_digits36 s' (Some (36 * default 0 acc + d))
      | None => acc
      end
  | EmptyString => acc
  end.

(** [parseInt(s, 36)]: leading white space, an optional sign, then the
    longest digit prefix; [NaN] ([None]) when there is no digit.  With
    radix 36 no [0x] prefix is stripped. *)
Definition parseInt36 (s : string) : option Z :=
  let s1 := skip_white_space s in
  let '(sign, s2) :=
    match s1 with
    | String "-" r => ((-1)%Z, r)
    | String "+" r => (1%Z, r)
    | _ => (1%Z, s1)
    end in
  match parse_digits36 s2 None with
  | Some n => Some (sign * Z.of_nat n)%Z
  | None => None
  end.

(** [arr.slice(start)]: [NaN] counts as 0, a negative start counts from
    the end, and the start is clamped to the array. *)
Definition slice_from {A} (start : option Z) (arr : list A) : list A :=
  let len := Z.of_nat (length arr) in
  let rel := default 0%Z start in
  let k := if (rel <? 0)%Z then Z.max (len + rel) 0 else Z.min rel len in
  drop (Z.to_nat k) arr.

(** [arr.slice(start, end)] for non-negative integer indices. *)
Definition slice {A} (start stop : nat) (arr : list A) : list A :=
  let len := length arr in
  let k := Nat.min start len in
  let final := Nat.min stop len in
  take (final - k) (drop k arr).

(** Adding to an insertion-ordered [Set<string>]. *)
Definition ordered_set_add (x : string) (xs : list string) : list string :=
  if decide (x ∈ xs) then xs else xs ++ [x].

End Js.

(** ** [MemoryStore] *)

Module MemoryStore.
Import Js.

Section Store.
(** The type parameters [EditMetadata] and [Delta] of the class. *)
Context {EditMetadata Delta : Type}.

(** The classes [MemoryRemote] and [MemoryLocalStore] are imported by
    [MemoryStore.ts] and are not part of the sources: the store keeps
    lists of such handles and calls their [shutdown()].  They are
    parameters here, [remote_shutdown] and [local_shutdown] being the
    effect of [shutdown()] on a handle. *)
Context {MemoryRemote MemoryLocalStore : Type}.
Variable remote_shutdown : MemoryRemote -> MemoryRemote.
Variable local_shutdown : MemoryLocalStore -> MemoryLocalStore.

(** Modelled from the spec: the [Commit] type of [types.ts], which is
    not among the sources; its fields are those of the commit record of
    the data model.  The store reads [ref] only. *)
Record Commit : Type := {
  ref : string;
  baseRef : option string;
  mergeRef : option string;
  mergeBaseRef : option string;
  delta : option Delta;
  editMetadata : EditMetadata;
  userId : string;
  clientId : string;
  remoteSyncId : option string }.

(** [{type: 'ack', refs, syncId}] *)
Record AckCommitsEvent : Type := {
  ack_refs : list string;
  ack_syncId : string }.

(** [{type: 'commits', commits, syncId?}] *)
Record CommitsEvent : Type := {
  ev_commits : list Commit;
  ev_syncId : option string }.

(** [{localStoreId, lastSyncCursor}] *)
Record RemoteSyncInfo : Type := {
  info_localStoreId : string;
  info_lastSyncCursor : option string }.

(** The fields of the class, in the order of their declaration; the
    promise queue is the atomicity of the operations below. *)
Record MemoryStore : Type := {
  remotes : list MemoryRemote;
  commits : list Commit;
  localCommitRefs : gset string;
  syncedCommits : gset string;
  localStoreId : string;
  lastRemoteSyncCursor : option string;
  localStores : list MemoryLocalStore;
  writeErrorMode : bool;
  channelName : string;
  online : bool }.

(** [new MemoryStore(channelName, getRemoteFn, online)]; [storeId] is
    the value drawn by [randomId()] for [localStoreId]. *)
Definition new (channel storeId : string) (isOnline : bool) : MemoryStore :=
  {| remotes := []; commits := []; localCommitRefs := ∅;
     syncedCommits := ∅; localStoreId := storeId;
     lastRemoteSyncCursor := None; localStores := [];
     writeErrorMode := false; channelName := channel;
     online := isOnline |}.

Definition set_remotes (v : list MemoryRemote) (s : MemoryStore) :=
  {| remotes := v; commits := commits s;
     localCommitRefs := localCommitRefs s;
     syncedCommits := syncedCommits s; localStoreId := localStoreId s;
     lastRemoteSyncCursor := lastRemoteSyncCursor s;
     localStores := localStores s; writeErrorMode := writeErrorMode s;
     channelName := channelName s; online := online s |}.

Definition set_localStores (v : list MemoryLocalStore) (s : MemoryStore) :=
  {| remotes := remotes s; commits := commits s;
     localCommitRefs := localCommitRefs s;
     syncedCommits := syncedCommits s; localStoreId := localStoreId s;
     lastRemoteSyncCursor := lastRemoteSyncCursor s;
     localStores := v; writeErrorMode := writeErrorMode s;
     channelName := channelName s; online := online s |}.

Definition set_commits (v : list Commit) (s : MemoryStore) :=
  {| remotes := remotes s; commits := v;
     localCommitRefs := localCommitRefs s;
     syncedCommits := syncedCommits s; localStoreId := localStoreId s;
     lastRemoteSyncCursor := lastRemoteSyncCursor s;
     localStores := localStores s; writeErrorMode := writeErrorMode s;
     channelName := channelName s; online := online s |}.

Definition set_localCommitRefs (v : gset string) (s : MemoryStore) :=
  {| remotes := remotes s; commits := commits s;
     localCommitRefs := v;
     syncedCommits := syncedCommits s; localStoreId := localStoreId s;
     lastRemoteSyncCursor := lastRemoteSyncCursor s;
     localStores := localStores s; writeErrorMode := writeErrorMode s;
     channelName := channelName s; online := online s |}.

Definition set_syncedCommits (v : gset string) (s : MemoryStore) :=
  {| remotes := remotes s; commits := commits s;
     localCommitRefs := localCommitRefs s;
     syncedCommits := v; localStoreId := localStoreId s;
     lastRemoteSyncCursor := lastRemoteSyncCursor s;
     localStores := localStores s; writeErrorMode := writeErrorMode s;
     channelName := channelName s; online := online s |}.

Definition set_lastRemoteSyncCursor (v : option string) (s : MemoryStore) :=
  {| remotes := remotes s; commits := commits s;
     localCommitRefs := localCommitRefs s;
     syncedCommits := syncedCommits s; localStoreId := localStoreId s;
     lastRemoteSyncCursor := v;
     localStores := localStores s; writeErrorMode := writeErrorMode s;
     channelName := channelName s; online := online s |}.

Definition set_writeErrorMode (v : bool) (s : MemoryStore) :=
  {| remotes := remotes s; commits := commits s;
     localCommitRefs := localCommitRefs s;
     syncedCommits := syncedCommits s; localStoreId := localStoreId s;
     lastRemoteSyncCursor := lastRemoteSyncCursor s;
     localStores := localStores s; writeErrorMode := v;
     channelName := channelName s; online := online s |}.

Definition set_online (v : bool) (s : MemoryStore) :=
  {| remotes := remotes s; commits := commits s;
     localCommitRefs := localCommitRefs s;
     syncedCommits := syncedCommits s; localStoreId := localStoreId s;
     lastRemoteSyncCursor := lastRemoteSyncCursor s;
     localStores := localStores s; writeErrorMode := writeErrorMode s;
     channelName := channelName s; online := v |}.

(** [this.commits.push(commit); this.localCommitRefs.add(ref)] *)
Definition push_commit (commit : Commit) (s : MemoryStore) :=
  set_localCommitRefs ({[ref commit]} ∪ localCommitRefs s)
    (set_commits (commits s ++ [commit]) s).

(** [this.syncedCommits.add(ref)] *)
Definition mark_synced (r : string) (s : MemoryStore) :=
  set_syncedCommits ({[r]} ∪ syncedCommits s) s.

(** A method call: it reads and updates the store and returns or throws. *)
Definition M (A : Type) : Type := MemoryStore -> outcome (A * MemoryStore).

Definition ret {A} (a : A) : M A := fun s => Ok (a, s).

Definition bind {A B} (m : M A) (k : A -> M B) : M B :=
  fun s => match m s with
           | Ok (a, s') => k a s'
           | Throw e => Throw e
           end.

(** Modelled from the spec: [PromiseQueue] of [lib/PromiseQueue.ts], which
    is not among the sources.  All operations are serialized through a
    per-store FIFO queue and callers observe a total order: in
    [this.queue.add(task)] the task runs once the tasks queued before it are
    done, and the call settles as the task does.  In a sequence of calls
    that is the task itself. *)
Definition queue_add {A} (task : M A) : M A := task.

(** [getSyncCounter] *)
Definition getSyncCounter (syncCursor : string) : option Z :=
  parseInt36 syncCursor.

(** [getCommits()]; the array returned is the store's own, the value here
    is its content when the call returns. *)
Definition getCommits (s : MemoryStore) : list Commit := commits s.

(** The getter [syncCursor]. *)
Definition syncCursor (s : MemoryStore) : string :=
  toString36 (length (commits s)).

(** [getLocalStore]; [store] is the handle built by
    [new MemoryLocalStore(...)]. *)
Definition getLocalStore (store : MemoryLocalStore) : M MemoryLocalStore :=
  fun s => Ok (store, set_localStores (localStores s ++ [store]) s).

(** [getRemote]; [be] is the handle built by [new MemoryRemote(...)]. *)
Definition getRemote (be : MemoryRemote) : M MemoryRemote :=
  fun s =>
    if online s then Ok (be, set_remotes (remotes s ++ [be]) s)
    else Throw "offline".

(** One round of the first loop of [addCommits]; [refs] is the local
    ordered set. *)
Definition add_commit (st : MemoryStore * list string) (commit : Commit)
  : MemoryStore * list string :=
  let r := ref commit in
  ((if decide (r ∈ localCommitRefs st.1) then st.1
    else push_commit commit st.1),
   ordered_set_add r st.2).

(** The commits of [cs] that the first loop of [addCommits] pushes when
    the refs in [known] are known: those whose ref is neither known nor
    carried by an earlier commit of [cs]. *)
Fixpoint accepted (known : gset string) (cs : list Commit) : list Commit :=
  match cs with
  | [] => []
  | c :: rest =>
      if decide (ref c ∈ known) then accepted known rest
      else c :: accepted ({[ref c]} ∪ known) rest
  end.

(** [addCommits(commits, remoteSyncId?)] *)
Definition addCommits (cs : list Commit) (remoteSyncId : option string)
  : M AckCommitsEvent :=
  queue_add (fun s =>
    let st := foldl add_commit (s, []) cs in
    let s' :=
      match remoteSyncId with
      | Some id =>
          set_lastRemoteSyncCursor (Some id)
            (foldl (fun s c => mark_synced (ref c) s) st.1 cs)
      | None => st.1
      end in
    Ok ({| ack_refs := st.2; ack_syncId := syncCursor s' |}, s')).

(** [acknowledgeCommits(refs, remoteSyncId)] *)
Definition acknowledgeCommits (refs : list string) (remoteSyncId : string)
  : M unit :=
  queue_add (fun s =>
    Ok (tt, set_lastRemoteSyncCursor (Some remoteSyncId)
              (foldl (fun s r => mark_synced r s) s refs))).

(** [getLocalCommitsEvent(startSyncCursor?)]; without a cursor the event
    carries the store's own array, the value here is its content when the
    call returns. *)
Definition getLocalCommitsEvent (startSyncCursor : option string)
  : M CommitsEvent :=
  queue_add (fun s =>
    Ok ({| ev_commits :=
             match startSyncCursor with
             | Some c => slice_from (getSyncCounter c) (commits s)
             | None => commits s
             end;
           ev_syncId := Some (syncCursor s) |}, s)).

(** [getRemoteSyncInfo()] *)
Definition getRemoteSyncInfo : M RemoteSyncInfo :=
  queue_add (fun s =>
    Ok ({| info_localStoreId := localStoreId s;
           info_lastSyncCursor := lastRemoteSyncCursor s |}, s)).

Definition BATCH_SIZE : nat := 5.

(** The loop [for (let i = 0; i < commits.length; i += BATCH_SIZE)] of
    [getCommitsForRemote], from index [i]: the events it yields. *)
Equations? batches_from (cs : list Commit) (i : nat) : list CommitsEvent
  by wf (length cs - i) lt :=
  batches_from cs i with lt_dec i (length cs) => {
    | left _ :=
        {| ev_commits := slice i (i + BATCH_SIZE) cs; ev_syncId := None |}
        :: batches_from cs (i + BATCH_SIZE);
    | right _ := [] }.
Proof. unfold BATCH_SIZE. lia. Qed.

(** [getCommitsForRemote()], iterated to its end: the unsynced commits
    are read in one queue task when the iteration starts, then yielded
    batch by batch. *)
Definition getCommitsForRemote : M (list CommitsEvent) :=
  bind
    (queue_add (fun s =>
       Ok (filter (fun c => ref c ∉ syncedCommits s) (commits s), s)))
    (fun cs => ret (batches_from cs 0)).

(** [shutdown()] *)
Definition shutdown : M unit :=
  queue_add (fun s =>
    Ok (tt, set_localStores (map local_shutdown (localStores s))
              (set_remotes (map remote_shutdown (remotes s)) s))).

(** *** Sequences of calls *)

(** The calls of the methods, the assignments to the public fields
    [online] and [writeErrorMode], and whatever happens to the handles on
    their own account (the setter [localNetworkPaused], their own
    methods). *)
Inductive call : Type :=
| AddCommits (cs : list Commit) (remoteSyncId : option string)
| AcknowledgeCommits (refs : list string) (remoteSyncId : string)
| GetLocalCommitsEvent (startSyncCursor : option string)
| GetRemoteSyncInfo
| GetCommitsForRemote
| GetLocalStore (store : MemoryLocalStore)
| GetRemote (be : MemoryRemote)
| Shutdown
| SetOnline (v : bool)
| SetWriteErrorMode (v : bool)
| UpdateHandles (f : MemoryRemote -> MemoryRemote)
                (g : MemoryLocalStore -> MemoryLocalStore).

(** The store after a call; a call that throws leaves it as it was. *)
Definition state_after {A} (m : M A) (s : MemoryStore) : MemoryStore :=
  match m s with
  | Ok (_, s') => s'
  | Throw _ => s
  end.

Definition step (s : MemoryStore) (c : call) : MemoryStore :=
  match c with
  | AddCommits cs r => state_after (addCommits cs r) s
  | AcknowledgeCommits refs r => state_after (acknowledgeCommits refs r) s
  | GetLocalCommitsEvent c => state_after (getLocalCommitsEvent c) s
  | GetRemoteSyncInfo => state_after getRemoteSyncInfo s
  | GetCommitsForRemote => state_after getCommitsForRemote s
  | GetLocalStore l => state_after (getLocalStore l) s
  | GetRemote be => state_after (getRemote be) s
  | Shutdown => state_after shutdown s
  | SetOnline v => set_online v s
  | SetWriteErrorMode v => set_writeErrorMode v s
  | UpdateHandles f g =>
      set_localStores (map g (localStores s)) (set_remotes (map f (remotes s)) s)
  end.

Definition run (s : MemoryStore) (calls : list call) : MemoryStore :=
  foldl step s calls.

(** The refs known to the store are those of its commits. *)
Definition consistent (s : MemoryStore) : Prop :=
  forall r, r ∈ localCommitRefs s <-> r ∈ ref <$> commits s.

(** A store is reachable when calls lead to it from a new store. *)
Definition reachable (s : MemoryStore) : Prop :=
  exists channel storeId isOnline calls,
    s = run (new channel storeId isOnline) calls.

(** Whether a call marks the ref [r] as synced with the remote. *)
Definition acknowledges (r : string) (c : call) : bool :=
  match c with
  | AddCommits cs (Some _) => bool_decide (r ∈ ref <$> cs)
  | AcknowledgeCommits refs _ => bool_decide (r ∈ refs)
  | _ => false
  end.

(** The local sync id of a stored commit is its position in the
    sequence, counted from 1: the value of the sync counter once the
    commit is pushed. *)
Definition localSyncIds (s : MemoryStore) : list (nat * Commit) :=
  zip (seq 1 (length (commits s))) (commits s).

(** The commits that [getCommitsForRemote] yields, batches joined. *)
Definition yielded (s : MemoryStore) : list Commit :=
  match getCommitsForRemote s with
  | Ok (events, _) => concat (map ev_commits events)
  | Throw _ => []
  end.

(** The sync id that a call writes to [lastRemoteSyncCursor], if any. *)
Definition carried_cursor (c : call) : option string :=
  match c with
  | AddCommits _ (Some id) => Some id
  | AcknowledgeCommits _ id => Some id
  | _ => None
  end.

(** The sync id written last by a sequence of calls, [init] when none
    writes one. *)
Definition last_cursor (init : option string) (calls : list call)
  : option string :=
  foldl (fun acc c =>
           match carried_cursor c with
           | Some id => Some id
           | None => acc
           end) init calls.

End Store.

Arguments Commit : clear implicits.
Arguments MemoryStore : clear implicits.
Arguments call : clear implicits.

End MemoryStore.

(** ** [DocStore]: the SQLite store of the server *)

Module DocStore.
Import Js.

(** [JSON.stringify] and [JSON.parse] at a type of JavaScript values.
    [stringify] throws, returns [undefined] ([None]) or returns a text;
    [parse] returns a value or throws a [SyntaxError] ([None]).  The text
    of [JSON.stringify] is never empty. *)
Class Json (A : Type) : Type := {
  stringify : A -> outcome (option string);
  parse : string -> option A;
  stringify_nonempty : forall a, stringify a <> Ok (Some "") }.

Section Store.
(** The type parameters [EditMetadata] and [Delta] of the class. *)
Context {EditMetadata Delta : Type}.
Context `{JsonE : Json EditMetadata} `{JsonD : Json Delta}.

(** What SQLite and JavaScript do with numbers is kept abstract.  [Num]
    is the type of numeric values (INTEGER and REAL in the database, a
    [number] once read back).
    - [numeric_affinity t]: the column [remoteSyncId] is declared
      [INTEGER]; a text stored in it, or compared with it, is converted
      to a number when it is a well-formed numeric literal ([Some]) and
      kept as text otherwise ([None]).
    - [sql_num_leb]: the order of numbers in [ORDER BY] and [WHERE].
    - [order_by], declared further down: the sorter behind [ORDER BY].
    - [js_num_gtb], [ToNumber], [num_toString]: JavaScript's [>] on
      numbers, its conversion of a string to a number, and [String(n)]. *)
Context {Num : Type}.
Variable numeric_affinity : string -> option Num.
Variable sql_num_leb : Num -> Num -> bool.
Variable js_num_gtb : Num -> Num -> bool.
Variable ToNumber : string -> Num.
Variable num_toString : Num -> string.

(** A value of the column [remoteSyncId], in the database and as the
    JavaScript value read from it. *)
Inductive Value : Type :=
| VNum (n : Num)
| VText (t : string).

(** [SqliteNodeType]: a row of the table [nodes].  [NULL] is [None]. *)
Record SqliteNodeType : Type := {
  row_ref : string;
  row_remoteSyncId : Value;
  row_userId : string;
  row_clientId : string;
  row_baseRef : option string;
  row_mergeRef : option string;
  row_mergeBaseRef : option string;
  row_delta : option string;
  row_editMetadata : option string }.

(** Modelled from the spec: the [DiffNode] type of the [trimerge-sync]
    package, whose declaration is not among the sources; its fields are
    those of the commit record of the data model.  [remoteSyncId] is
    typed [string] but holds whatever the database returns. *)
Record DiffNode : Type := {
  ref : string;
  remoteSyncId : option Value;
  userId : string;
  clientId : string;
  baseRef : option string;
  mergeRef : option string;
  mergeBaseRef : option string;
  delta : option Delta;
  editMetadata : option EditMetadata }.

(** [{type: 'nodes', nodes, syncId}] *)
Record NodesEvent : Type := {
  ev_nodes : list DiffNode;
  ev_syncId : string }.

(** [{type: 'ack', refs, syncId}] *)
Record AckNodesEvent : Type := {
  ack_refs : list string;
  ack_syncId : string }.

(** The database: the rows of [nodes] in rowid order, which is the
    order of insertion since no row is ever deleted. *)
Record Database : Type := { nodes : list SqliteNodeType }.

(** The database after [CREATE TABLE IF NOT EXISTS] on a new file. *)
Definition empty : Database := {| nodes := [] |}.

(** Storing a text in the [INTEGER] column. *)
Definition affinity (t : string) : Value :=
  match numeric_affinity t with
  | Some n => VNum n
  | None => VText t
  end.

(** SQLite's order on values: a number sorts before a text, texts are
    compared byte by byte. *)
Definition sql_leb (a b : Value) : bool :=
  match a, b with
  | VNum x, VNum y => sql_num_leb x y
  | VNum _, VText _ => true
  | VText _, VNum _ => false
  | VText x, VText y => String.leb x y
  end.

(** JavaScript's [a > b] on the values read from the column. *)
Definition js_gtb (a b : Value) : bool :=
  match a, b with
  | VText x, VText y => String.ltb y x
  | VNum x, VNum y => js_num_gtb x y
  | VNum x, VText y => js_num_gtb x (ToNumber y)
  | VText x, VNum y => js_num_gtb (ToNumber x) y
  end.

(** [String(v)] *)
Definition js_String (v : Value) : string :=
  match v with
  | VText t => t
  | VNum n => num_toString n
  end.

(** What [ORDER BY remoteSyncId] promises of the rows it returns: they are
    the selected rows, in ascending order of the key.  SQL leaves the order
    of rows with equal keys open. *)
Definition is_order_by
    (order : list SqliteNodeType -> list SqliteNodeType) : Prop :=
  forall rows,
    order rows ≡ₚ rows
    /\ Sorted (fun a b => sql_leb (row_remoteSyncId a) (row_remoteSyncId b) = true)
         (order rows).

(** One such order: a sort that keeps rows with equal keys in rowid order,
    the order in which the table scan delivers them. *)
Fixpoint insert_row (r : SqliteNodeType) (sorted : list SqliteNodeType)
  : list SqliteNodeType :=
  match sorted with
  | [] => [r]
  | x :: rest =>
      if sql_leb (row_remoteSyncId r) (row_remoteSyncId x)
      then r :: x :: rest
      else x :: insert_row r rest
  end.

Definition order_by_remoteSyncId (rows : list SqliteNodeType)
  : list SqliteNodeType :=
  foldr insert_row [] rows.

(** The sorter of the database engine. *)
Variable order_by : list SqliteNodeType -> list SqliteNodeType.

(** [stmt.all({ lastSyncId })] for the two statements of
    [getNodesEvent]. *)
Definition select_nodes (lastSyncId : option string) (db : Database)
  : list SqliteNodeType :=
  order_by
    match lastSyncId with
    | None => nodes db
    | Some l =>
        filter (fun r => negb (sql_leb (row_remoteSyncId r) (affinity l)))
               (nodes db)
    end.

(** [x || undefined] on a string or [null]. *)
Definition or_undefined (x : option string) : option string :=
  match x with
  | Some "" => None
  | _ => x
  end.

(** [x ? JSON.parse(x) : undefined] *)
Definition parse_or_undefined {A} `{Json A} (x : option string)
  : outcome (option A) :=
  match x with
  | None | Some "" => Ok None
  | Some t =>
      match parse t with
      | Some a => Ok (Some a)
      | None => Throw "SyntaxError"
      end
  end.

(** The callback of [sqliteNodes.map], without its update of [syncId]. *)
Definition node_of_row (r : SqliteNodeType) : outcome DiffNode :=
  match parse_or_undefined (row_delta r) with
  | Throw e => Throw e
  | Ok d =>
      match parse_or_undefined (row_editMetadata r) with
      | Throw e => Throw e
      | Ok m =>
          Ok {| ref := row_ref r;
                remoteSyncId := Some (row_remoteSyncId r);
                userId := row_userId r;
                clientId := row_clientId r;
                baseRef := or_undefined (row_baseRef r);
                mergeRef := or_undefined (row_mergeRef r);
                mergeBaseRef := or_undefined (row_mergeBaseRef r);
                delta := d;
                editMetadata := m |}
      end
  end.

Fixpoint nodes_of_rows (rows : list SqliteNodeType)
  : outcome (list DiffNode) :=
  match rows with
  | [] => Ok []
  | r :: rest =>
      match node_of_row r with
      | Throw e => Throw e
      | Ok n =>
          match nodes_of_rows rest with
          | Throw e => Throw e
          | Ok ns => Ok (n :: ns)
          end
      end
  end.

(** [if (remoteSyncId > syncId) syncId = remoteSyncId], row by row. *)
Definition max_syncId (rows : list SqliteNodeType) : Value :=
  foldl (fun syncId r =>
           if js_gtb (row_remoteSyncId r) syncId
           then row_remoteSyncId r else syncId)
        (VText "") rows.

(** [getNodesEvent(lastSyncId?)] *)
Definition getNodesEvent (lastSyncId : option string) (db : Database)
  : outcome NodesEvent :=
  let sqliteNodes := select_nodes lastSyncId db in
  match nodes_of_rows sqliteNodes with
  | Throw e => Throw e
  | Ok ns =>
      Ok {| ev_nodes := ns;
            ev_syncId := js_String (max_syncId sqliteNodes) |}
  end.

(** [JSON.stringify(x)] where [x] may be [undefined]. *)
Definition stringify_opt {A} `{Json A} (x : option A)
  : outcome (option string) :=
  match x with
  | None => Ok None
  | Some a => stringify a
  end.

(** The parameters [{userId, ..., remoteSyncId}] bound by [insert.run],
    as the row they make. *)
Definition insert_params (remoteSyncId : string) (n : DiffNode)
  : outcome SqliteNodeType :=
  match stringify_opt (delta n) with
  | Throw e => Throw e
  | Ok d =>
      match stringify_opt (editMetadata n) with
      | Throw e => Throw e
      | Ok m =>
          Ok {| row_ref := ref n;
                row_remoteSyncId := affinity remoteSyncId;
                row_userId := userId n;
                row_clientId := clientId n;
                row_baseRef := baseRef n;
                row_mergeRef := mergeRef n;
                row_mergeBaseRef := mergeBaseRef n;
                row_delta := d;
                row_editMetadata := m |}
      end
  end.

(** [insert.run({...})]: the row is appended unless its [ref], the
    primary key, is already in the table. *)
Definition insert_run (remoteSyncId : string) (n : DiffNode)
    (rows : list SqliteNodeType) : outcome (list SqliteNodeType) :=
  match insert_params remoteSyncId n with
  | Throw e => Throw e
  | Ok row =>
      if decide (row_ref row ∈ row_ref <$> rows)
      then Throw "UNIQUE constraint failed: nodes.ref"
      else Ok (rows ++ [row])
  end.

(** The loop of the transaction of [add]: rows and pushed refs. *)
Fixpoint insert_all (remoteSyncId : string) (ns : list DiffNode)
    (st : list SqliteNodeType * list string)
  : outcome (list SqliteNodeType * list string) :=
  match ns with
  | [] => Ok st
  | n :: rest =>
      match insert_run remoteSyncId n st.1 with
      | Throw e => Throw e
      | Ok rows => insert_all remoteSyncId rest (rows, st.2 ++ [ref n])
      end
  end.

(** [add(nodes)]; [remoteSyncId] is the value that [syncIdCreator()]
    returns in this call.  A transaction that throws is rolled back:
    the caller keeps the database it had. *)
Definition add (ns : list DiffNode) (remoteSyncId : string)
    (db : Database) : outcome (AckNodesEvent * Database) :=
  match insert_all remoteSyncId ns (nodes db, []) with
  | Throw e => Throw e
  | Ok (rows, refs) =>
      Ok ({| ack_refs := refs; ack_syncId := remoteSyncId |},
          {| nodes := rows |})
  end.

(** Parent refs that [x || undefined] keeps: none is the empty string. *)
Definition parents_kept (n : DiffNode) : Prop :=
  baseRef n <> Some "" /\ mergeRef n <> Some ""
  /\ mergeBaseRef n <> Some "".

(** A value that [JSON.stringify] and [JSON.parse] carry through. *)
Definition json_serializable {A} `{Json A} (x : option A) : Prop :=
  match x with
  | None => True
  | Some a => exists t, stringify a = Ok (Some t) /\ parse t = Some a
  end.

(** The node [n] as it comes back when its row holds [v] in the column
    [remoteSyncId]. *)
Definition stored_as (v : Value) (n : DiffNode) : DiffNode :=
  {| ref := ref n; remoteSyncId := Some v;
     userId := userId n; clientId := clientId n;
     baseRef := baseRef n; mergeRef := mergeRef n;
     mergeBaseRef := mergeBaseRef n;
     delta := delta n; editMetadata := editMetadata n |}.

End Store.

Arguments Value : clear implicits.
Arguments DiffNode : clear implicits.
Arguments Database : clear implicits.

End DocStore.

(** ** A small instance of the parameters, for evaluation *)

Module Sample.
Import Js.

(** JSON booleans. *)
#[export, refine] Instance Json_bool : DocStore.Json bool := {|
  DocStore.stringify := fun b : bool =>
    Ok (Some (if b then "true" else "false"));
  DocStore.parse := fun t : string =>
    if decide (t = "true") then Some true
    else if decide (t = "false") then Some false
    else None |}.
Proof. intros []; discriminate. Defined.

(** Unsigned decimal integer literals. *)
Fixpoint decimal_digits (s : string) (acc : option Z) : option Z :=
  match s with
  | String c s' =>
      let n := nat_of_ascii c in
      if (48 <=? n) && (n <=? 57)
      then decimal_digits s' (Some (10 * default 0 acc + Z.of_nat (n - 48)))%Z
      else None
  | EmptyString => acc
  end.

(** Numbers: integers, and [None] for [NaN]. *)
Definition Num : Type := option Z.

(** The sample conversion of the column: a text of decimal digits
    becomes the integer it spells, any other text stays text.  SQLite
    also converts literals with a sign, with white space around them,
    with a fraction or with an exponent; the sample is used on the keys
    below only, which are digit strings or timestamps and on which the
    two agree. *)
Definition numeric_affinity (t : string) : option Num :=
  match decimal_digits t None with
  | Some z => Some (Some z)
  | None => None
  end.

Definition sql_num_leb (a b : Num) : bool :=
  match a, b with
  | Some x, Some y => (x <=? y)%Z
  | None, _ => true
  | Some _, None => false
  end.

Definition js_num_gtb (a b : Num) : bool :=
  match a, b with
  | Some x, Some y => (y <? x)%Z
  | _, _ => false
  end.

Definition ToNumber (t : string) : Num :=
  if decide (t = "") then Some 0%Z else decimal_digits t None.

(** [String(n)] for an integer that a JavaScript number holds exactly
    and prints in positional notation (below [2^53] and below [1e21]). *)
Definition num_toString (n : Num) : string :=
  match n with
  | Some z => pretty z
  | None => "NaN"
  end.

Definition add := DocStore.add (EditMetadata := bool) (Delta := bool)
                    numeric_affinity.
Definition order_by := DocStore.order_by_remoteSyncId sql_num_leb.

Definition getNodesEvent :=
  DocStore.getNodesEvent (EditMetadata := bool) (Delta := bool)
    numeric_affinity sql_num_leb js_num_gtb ToNumber num_toString order_by.

(** Commits and handles for the in-memory store: payloads are strings,
    a handle is its [closed] flag. *)
Definition commit (r : string) : MemoryStore.Commit string string :=
  {| MemoryStore.ref := r; MemoryStore.baseRef := None;
     MemoryStore.mergeRef := None; MemoryStore.mergeBaseRef := None;
     MemoryStore.delta := None; MemoryStore.editMetadata := "";
     MemoryStore.userId := "u"; MemoryStore.clientId := "c";
     MemoryStore.remoteSyncId := None |}.

(** The commit that another user makes under the ref [r]: it differs
    from [commit r] in content, not in ref. *)
Definition commit_by (user r : string) : MemoryStore.Commit string string :=
  {| MemoryStore.ref := r; MemoryStore.baseRef := None;
     MemoryStore.mergeRef := None; MemoryStore.mergeBaseRef := None;
     MemoryStore.delta := Some "edit"; MemoryStore.editMetadata := "";
     MemoryStore.userId := user; MemoryStore.clientId := "c";
     MemoryStore.remoteSyncId := None |}.

Definition Store : Type := MemoryStore.MemoryStore string string bool bool.

Definition close (closed : bool) : bool := true.

Definition store0 : Store := MemoryStore.new "doc" "store" true.

Definition run : Store -> list (MemoryStore.call string string bool bool)
                 -> Store :=
  MemoryStore.run close close.

Definition shutdown :=
  MemoryStore.shutdown (EditMetadata := string) (Delta := string)
    close close.

(** Seven commits, the second one acknowledged. *)
Definition store7 : Store :=
  run store0
    [MemoryStore.AddCommits
       [commit "a"; commit "b"; commit "c"; commit "d"; commit "e";
        commit "f"; commit "g"] None;
     MemoryStore.AcknowledgeCommits ["b"] "r1"].

(** Nodes for the SQLite store, and a sync id as the default
    [syncIdCreator] makes them. *)
Definition node (r : string) (parent : option string) (d : option bool)
  : DocStore.DiffNode bool bool Num :=
  {| DocStore.ref := r; DocStore.remoteSyncId := None;
     DocStore.userId := "u"; DocStore.clientId := "c";
     DocStore.baseRef := parent; DocStore.mergeRef := None;
     DocStore.mergeBaseRef := None;
     DocStore.delta := d; DocStore.editMetadata := Some false |}.

Definition timestamp : string := "2021-10-25T12:00:00.000Z".

(** Two batches of nodes under two sync ids, and the databases after the
    first and after both. *)
Definition later : string := "2021-10-26T08:30:00.000Z".

Definition batch1 : list (DocStore.DiffNode bool bool Num) :=
  [node "a" None (Some true); node "b" (Some "a") None].

Definition batch2 : list (DocStore.DiffNode bool bool Num) :=
  [node "c" (Some "b") (Some false)].

Definition database_after
    (o : outcome (DocStore.AckNodesEvent * DocStore.Database Num))
  : DocStore.Database Num :=
  match o with
  | Ok (_, db) => db
  | Throw _ => DocStore.empty
  end.

Definition db1 : DocStore.Database Num :=
  database_after (add batch1 timestamp DocStore.empty).

Definition db2 : DocStore.Database Num :=
  database_after (add batch2 later db1).

End Sample.

(** * Properties *)

(** ** Radix 36 *)

Section Radix36.
Import Js.

Lemma digit36_cases (P : nat -> Prop) :
  P 0 -> P 1 -> P 2 -> P 3 -> P 4 -> P 5 -> P 6 -> P 7 -> P 8 -> P 9 ->
  P 10 -> P 11 -> P 12 -> P 13 -> P 14 -> P 15 -> P 16 -> P 17 -> P 18 ->
  P 19 -> P 20 -> P 21 -> P 22 -> P 23 -> P 24 -> P 25 -> P 26 -> P 27 ->
  P 28 -> P 29 -> P 30 -> P 31 -> P 32 -> P 33 -> P 34 -> P 35 ->
  forall d, d < 36 -> P d.
Proof.
  intros. do 36 (destruct d as [|d]; [assumption|]). lia.
Qed.

Lemma digit_value36_digit36 d : d < 36 -> digit_value36 (digit36 d) = Some d.
Proof. revert d. apply digit36_cases; reflexivity. Qed.

Lemma digit36_not_white_space d : d < 36 -> is_white_space (digit36 d) = false.
Proof. revert d. apply digit36_cases; reflexivity. Qed.

Lemma digit36_not_sign d :
  d < 36 -> digit36 d <> "-"%char /\ digit36 d <> "+"%char.
Proof. revert d. apply digit36_cases; split; discriminate. Qed.

(** The digits of [n] start with a digit. *)
Lemma toString36_digits_head n acc :
  exists d rest, d < 36 /\ toString36_digits n acc = String (digit36 d) rest.
Proof.
  funelim (toString36_digits n acc).
  - exists n, acc. split; [assumption | reflexivity].
  - assumption.
Qed.

(** Reading the digits of [n] back pushes [n] onto the accumulator. *)
Lemma parse_digits36_toString36_digits n acc :
  exists k, forall o,
    parse_digits36 (toString36_digits n acc) o
    = parse_digits36 acc (Some (default 0 o * 36 ^ k + n)).
Proof.
  funelim (toString36_digits n acc).
  - exists 1. intros o. cbn [parse_digits36].
    rewrite digit_value36_digit36 by assumption.
    rewrite Nat.pow_1_r. f_equal. f_equal. lia.
  - match goal with IH : exists _, _ |- _ => destruct IH as [k Hk] end.
    exists (S k). intros o. rewrite Hk. cbn [parse_digits36].
    rewrite digit_value36_digit36 by (apply Nat.mod_upper_bound; lia).
    f_equal. f_equal. cbn [default].
    pose proof (Nat.div_mod_eq n 36). rewrite Nat.pow_succ_r'.
    unfold id. lia.
Qed.

(** [parseInt(n.toString(36), 36) === n] *)
Lemma parseInt36_toString36 n : parseInt36 (toString36 n) = Some (Z.of_nat n).
Proof.
  unfold parseInt36, toString36.
  destruct (toString36_digits_head n "") as (d & rest & Hd & Hs).
  destruct (parse_digits36_toString36_digits n "") as [k Hk].
  assert (Hskip : skip_white_space (toString36_digits n "")
                  = toString36_digits n "").
  { rewrite Hs. cbn. now rewrite digit36_not_white_space. }
  rewrite Hskip.
  assert (Hsign : (match toString36_digits n "" with
                   | String "-" r => ((-1)%Z, r)
                   | String "+" r => (1%Z, r)
                   | _ => (1%Z, toString36_digits n "")
                   end) = (1%Z, toString36_digits n "")).
  { rewrite Hs. destruct (digit36_not_sign d Hd) as [Hm Hp].
    destruct (digit36 d) as [[] [] [] [] [] [] [] []]; congruence. }
  rewrite Hsign, Hk. cbn. f_equal. lia.
Qed.

End Radix36.

(** ** The in-memory store *)

Section MemoryStoreFacts.
Import Js MemoryStore.

Context {EditMetadata Delta MemoryRemote MemoryLocalStore : Type}.
Variable remote_shutdown : MemoryRemote -> MemoryRemote.
Variable local_shutdown : MemoryLocalStore -> MemoryLocalStore.

Local Abbreviation Store :=
  (MemoryStore EditMetadata Delta MemoryRemote MemoryLocalStore).
Local Abbreviation Commit := (Commit EditMetadata Delta).
Local Abbreviation call := (call EditMetadata Delta MemoryRemote MemoryLocalStore).
Local Abbreviation step := (step remote_shutdown local_shutdown).
Local Abbreviation run := (run remote_shutdown local_shutdown).
Local Abbreviation shutdown := (shutdown remote_shutdown local_shutdown).
Local Abbreviation reachable := (reachable remote_shutdown local_shutdown).

Implicit Types (s : Store) (c : Commit) (cs : list Commit).

(** Equality of two stores, field by field. *)
Lemma store_ext s1 s2 :
  remotes s1 = remotes s2 -> commits s1 = commits s2 ->
  localCommitRefs s1 = localCommitRefs s2 ->
  syncedCommits s1 = syncedCommits s2 ->
  localStoreId s1 = localStoreId s2 ->
  lastRemoteSyncCursor s1 = lastRemoteSyncCursor s2 ->
  localStores s1 = localStores s2 ->
  writeErrorMode s1 = writeErrorMode s2 ->
  channelName s1 = channelName s2 -> online s1 = online s2 ->
  s1 = s2.
Proof. destruct s1, s2. cbn. intros. now subst. Qed.

Ltac store_fields :=
  cbn [remotes commits localCommitRefs syncedCommits localStoreId
       lastRemoteSyncCursor localStores writeErrorMode channelName online
       set_remotes set_localStores set_commits set_localCommitRefs
       set_syncedCommits set_lastRemoteSyncCursor set_online
       set_writeErrorMode push_commit mark_synced
       foldl fst snd accepted fmap list_fmap list_to_set].

Ltac store_eq :=
  apply store_ext; store_fields; try reflexivity;
  try (rewrite ?app_nil_r, <- ?app_assoc; reflexivity);
  try set_solver.

(** *** The two loops of [addCommits] in closed form *)

Lemma fold_add_commit s acc cs :
  (foldl add_commit (s, acc) cs).1
  = set_localCommitRefs (list_to_set (ref <$> cs) ∪ localCommitRefs s)
      (set_commits (commits s ++ accepted (localCommitRefs s) cs) s).
Proof.
  revert s acc. induction cs as [|c cs IH]; intros s acc.
  - store_eq.
  - cbn [foldl]. unfold add_commit at 2. cbn [fst snd].
    rewrite IH. cbn [accepted fmap list_fmap list_to_set].
    destruct (decide (ref c ∈ localCommitRefs s)) as [Hin|Hout].
    + store_eq.
    + store_eq.
Qed.

Lemma fold_add_commit_refs s acc cs :
  (foldl add_commit (s, acc) cs).2
  = foldl (fun a c => ordered_set_add (ref c) a) acc cs.
Proof.
  revert s acc. induction cs as [|c cs IH]; intros s acc; [reflexivity|].
  cbn [foldl]. unfold add_commit at 2. cbn [fst snd]. apply IH.
Qed.

Lemma fold_mark_synced s (refs : list string) :
  foldl (fun s r => mark_synced r s) s refs
  = set_syncedCommits (list_to_set refs ∪ syncedCommits s) s.
Proof.
  revert s. induction refs as [|r refs IH]; intros s.
  - store_eq.
  - cbn [foldl]. rewrite IH. store_eq.
Qed.

Lemma fold_mark_synced_commits s cs :
  foldl (fun s c => mark_synced (ref c) s) s cs
  = set_syncedCommits (list_to_set (ref <$> cs) ∪ syncedCommits s) s.
Proof.
  rewrite <- fold_mark_synced. revert s.
  induction cs as [|c cs IH]; intros s; [reflexivity|]. cbn. apply IH.
Qed.

(** The store that [addCommits] leaves. *)
Lemma addCommits_unfold cs r s :
  addCommits cs r s
  = Ok ({| ack_refs := foldl (fun a c => ordered_set_add (ref c) a) [] cs;
           ack_syncId :=
             toString36 (length (commits s ++ accepted (localCommitRefs s) cs)) |},
        set_lastRemoteSyncCursor
          (match r with Some id => Some id | None => lastRemoteSyncCursor s end)
          (set_syncedCommits
             (match r with
              | Some _ => list_to_set (ref <$> cs) ∪ syncedCommits s
              | None => syncedCommits s
              end)
             (set_localCommitRefs
                (list_to_set (ref <$> cs) ∪ localCommitRefs s)
                (set_commits (commits s ++ accepted (localCommitRefs s) cs) s)))).
Proof.
  unfold addCommits, queue_add. rewrite fold_add_commit_refs, fold_add_commit.
  set (s1 := set_localCommitRefs _ _).
  assert (Hs : match r with
               | Some id =>
                   set_lastRemoteSyncCursor (Some id)
                     (foldl (fun s c => mark_synced (ref c) s) s1 cs)
               | None => s1
               end
               = set_lastRemoteSyncCursor
                   (match r with
                    | Some id => Some id
                    | None => lastRemoteSyncCursor s
                    end)
                   (set_syncedCommits
                      (match r with
                       | Some _ => list_to_set (ref <$> cs) ∪ syncedCommits s
                       | None => syncedCommits s
                       end) s1)).
  { destruct r as [id|]; [rewrite fold_mark_synced_commits|]; store_eq. }
  rewrite Hs. reflexivity.
Qed.

Lemma acknowledgeCommits_unfold (refs : list string) id s :
  acknowledgeCommits refs id s
  = Ok (tt, set_lastRemoteSyncCursor (Some id)
              (set_syncedCommits (list_to_set refs ∪ syncedCommits s) s)).
Proof.
  unfold acknowledgeCommits, queue_add. now rewrite fold_mark_synced.
Qed.

(** Nothing known is accepted again. *)
Lemma accepted_known (known : gset string) cs :
  (forall c, c ∈ cs -> ref c ∈ known) -> accepted known cs = [].
Proof.
  induction cs as [|c cs IH]; intros Hk; [reflexivity|]. cbn.
  destruct (decide (ref c ∈ known)) as [_|Hout].
  - apply IH. intros d Hd. apply Hk. now constructor.
  - exfalso. apply Hout, Hk. constructor.
Qed.

Lemma accepted_fresh (known : gset string) cs c :
  c ∈ accepted known cs -> c ∈ cs /\ ref c ∉ known.
Proof.
  revert known. induction cs as [|d cs IH]; intros known; cbn.
  - intros H. inversion H.
  - destruct (decide (ref d ∈ known)) as [Hin|Hout].
    + intros H. destruct (IH _ H). split; [now constructor | assumption].
    + intros H. apply elem_of_cons in H as [->|H].
      * split; [constructor | assumption].
      * destruct (IH _ H) as [? Hn]. split; [now constructor | set_solver].
Qed.

Lemma accepted_refs (known : gset string) cs r :
  r ∈ ref <$> cs -> r ∉ known -> r ∈ ref <$> accepted known cs.
Proof.
  revert known. induction cs as [|d cs IH]; intros known; cbn.
  - intros H. inversion H.
  - intros H Hr. destruct (decide (ref d ∈ known)) as [Hin|Hout].
    + apply elem_of_cons in H as [->|H]; [contradiction | now apply IH].
    + cbn. destruct (decide (r = ref d)) as [->|Hne]; [constructor|].
      apply elem_of_cons in H as [?|H]; [contradiction|].
      constructor. apply IH; [assumption | set_solver].
Qed.

Lemma accepted_refs_inv (known : gset string) cs r :
  r ∈ ref <$> accepted known cs -> r ∈ ref <$> cs.
Proof.
  intros (c & -> & Hc)%list_elem_of_fmap.
  apply list_elem_of_fmap. exists c. split; [reflexivity|].
  now apply accepted_fresh in Hc.
Qed.

Lemma accepted_NoDup (known : gset string) cs :
  NoDup (ref <$> accepted known cs).
Proof.
  revert known. induction cs as [|c cs IH]; intros known; cbn.
  - constructor.
  - destruct (decide (ref c ∈ known)) as [Hin|Hout]; [apply IH|].
    cbn. constructor; [|apply IH].
    intros (d & Hd & Hin)%list_elem_of_fmap.
    apply accepted_fresh in Hin as [_ Hnot]. set_solver.
Qed.

(** *** What a call can change *)

(** For a call that touches neither the commits nor the synced refs. *)
Ltac unchanged :=
  cbn; split; [exists []; now rewrite app_nil_r|];
  split; [done|]; split; intros; assumption.

Lemma step_effect s (k : call) :
  (exists new, commits (step s k) = commits s ++ new)
  /\ syncedCommits s ⊆ syncedCommits (step s k)
  /\ (forall r, acknowledges r k = false ->
                r ∈ syncedCommits (step s k) -> r ∈ syncedCommits s)
  /\ (consistent s -> consistent (step s k)).
Proof.
  destruct k as [cs r|refs id|since| | |l|be| |v|v|f g];
    unfold step, state_after.
  - rewrite addCommits_unfold. cbn.
    split; [eauto|]. split; [destruct r; set_solver|].
    split.
    + destruct r; cbn; [|tauto]. intros x Hx.
      apply bool_decide_eq_false in Hx. set_solver.
    + intros Hc x. cbn. rewrite fmap_app, elem_of_app, elem_of_union,
        elem_of_list_to_set. specialize (Hc x). split.
      * intros [Hx|Hx]; [|tauto].
        destruct (decide (x ∈ localCommitRefs s)); [tauto|].
        right. now apply accepted_refs.
      * intros [Hx|Hx]; [tauto|]. left. now apply accepted_refs_inv in Hx.
  - rewrite acknowledgeCommits_unfold. cbn.
    split; [exists []; now rewrite app_nil_r|]. split; [set_solver|].
    split; [|tauto]. intros x Hx. apply bool_decide_eq_false in Hx. set_solver.
  - unchanged.
  - unchanged.
  - unchanged.
  - unchanged.
  - unfold getRemote. destruct (online s); unchanged.
  - unchanged.
  - unchanged.
  - unchanged.
  - unchanged.
Qed.

Lemma run_cons s (k : call) (calls : list call) :
  run s (k :: calls) = run (step s k) calls.
Proof. reflexivity. Qed.

Lemma run_commits s (calls : list call) :
  exists new, commits (run s calls) = commits s ++ new.
Proof.
  revert s. induction calls as [|k calls IH]; intros s.
  - exists []. cbn. now rewrite app_nil_r.
  - rewrite run_cons. destruct (IH (step s k)) as [new2 ->].
    destruct (step_effect s k) as ([new1 ->] & _).
    exists (new1 ++ new2). now rewrite app_assoc.
Qed.

Lemma run_syncedCommits s (calls : list call) :
  syncedCommits s ⊆ syncedCommits (run s calls).
Proof.
  revert s. induction calls as [|k calls IH]; intros s; [done|].
  rewrite run_cons.
  destruct (step_effect s k) as (_ & Hs & _). specialize (IH (step s k)).
  set_solver.
Qed.

Lemma run_unacknowledged s (calls : list call) r :
  Forall (fun k => acknowledges r k = false) calls ->
  r ∈ syncedCommits (run s calls) -> r ∈ syncedCommits s.
Proof.
  revert s. induction calls as [|k calls IH]; intros s Hall; [done|].
  rewrite run_cons. inversion Hall; subst. intros Hr.
  destruct (step_effect s k) as (_ & _ & Hs & _). auto.
Qed.

Lemma run_consistent s (calls : list call) :
  consistent s -> consistent (run s calls).
Proof.
  revert s. induction calls as [|k calls IH]; intros s Hc; [done|].
  rewrite run_cons. apply IH. now apply step_effect.
Qed.

(** In a reachable store the known refs are the refs of the commits. *)
Lemma reachable_consistent s : reachable s -> consistent s.
Proof.
  intros (ch & id & on & calls & ->). apply run_consistent.
  intros r. cbn. set_solver.
Qed.

(** *** The batches of [getCommitsForRemote] *)

Lemma slice_take_drop {A} i n (l : list A) :
  slice i (i + n) l = take n (drop i l).
Proof.
  unfold slice. destruct (le_lt_dec (length l) i) as [Hge|Hlt].
  - rewrite !Nat.min_r by lia. rewrite Nat.sub_diag.
    rewrite (drop_ge l i) by lia. now rewrite take_nil.
  - rewrite (Nat.min_l i) by lia.
    destruct (le_lt_dec (i + n) (length l)) as [Hle|Hgt].
    + rewrite Nat.min_l by lia. f_equal. lia.
    + rewrite Nat.min_r by lia.
      rewrite !take_ge; [reflexivity | |]; rewrite length_drop; lia.
Qed.

Lemma batches_from_concat cs i :
  concat (map ev_commits (batches_from cs i)) = drop i cs.
Proof.
  funelim (batches_from cs i).
  - cbn. rewrite H, slice_take_drop.
    rewrite <- (drop_drop cs BATCH_SIZE i). apply take_drop.
  - cbn. rewrite drop_ge; [reflexivity | lia].
Qed.

Lemma batches_from_lookup cs i j ev :
  batches_from cs i !! j = Some ev ->
  i + BATCH_SIZE * j < length cs
  /\ ev = {| ev_commits := take BATCH_SIZE (drop (i + BATCH_SIZE * j) cs);
             ev_syncId := None |}.
Proof.
  revert j ev. funelim (batches_from cs i); intros j ev.
  - destruct j as [|j]; cbn [lookup list_lookup].
    + intros [= <-]. rewrite slice_take_drop.
      replace (i + BATCH_SIZE * 0) with i by lia.
      split; [assumption | reflexivity].
    + intros Hj. apply H in Hj as [Hlt ->].
      replace (i + BATCH_SIZE + BATCH_SIZE * j) with (i + BATCH_SIZE * S j)
        in * by lia.
      split; [assumption | reflexivity].
  - intros Hj. inversion Hj.
Qed.

Lemma getCommitsForRemote_unfold s :
  getCommitsForRemote s
  = Ok (batches_from
          (filter (fun c => ref c ∉ syncedCommits s) (commits s)) 0, s).
Proof. reflexivity. Qed.

Lemma yielded_filter s :
  yielded s = filter (fun c => ref c ∉ syncedCommits s) (commits s).
Proof.
  unfold yielded. rewrite getCommitsForRemote_unfold.
  now rewrite batches_from_concat.
Qed.

(** A synced ref stays out of every later iteration. *)
Lemma yielded_after_synced s (calls : list call) d :
  d ∈ yielded (run s calls) -> ref d ∉ syncedCommits s.
Proof.
  rewrite yielded_filter. intros [Hd _]%list_elem_of_filter Hin.
  apply Hd. now apply run_syncedCommits.
Qed.

(** C2: [getCommitsForRemote] yields exactly the commits whose ref is not
    marked as synced, in the order of the store, in batches of
    [BATCH_SIZE] = 5 commits, the last batch alone possibly shorter (and
    no batch empty); a commit that was yielded and that no later call
    acknowledges is yielded again by a later iteration. *)
Theorem getCommitsForRemote_batches s :
  exists events,
    getCommitsForRemote s = Ok (events, s)
    /\ concat (map ev_commits events)
       = filter (fun c => ref c ∉ syncedCommits s) (commits s)
    /\ (forall j ev, events !! j = Some ev ->
          1 <= length (ev_commits ev) <= 5
          /\ (S j < length events -> length (ev_commits ev) = 5)
          /\ ev_syncId ev = None)
    /\ (forall c (calls : list call),
          c ∈ concat (map ev_commits events) ->
          Forall (fun k => acknowledges (ref c) k = false) calls ->
          c ∈ yielded (run s calls)).
Proof.
  eexists. split; [apply getCommitsForRemote_unfold|].
  split; [apply batches_from_concat|]. split.
  - intros j ev Hj. pose proof Hj as [Hlt ->]%batches_from_lookup.
    cbn [ev_commits ev_syncId]. rewrite length_take, length_drop.
    unfold BATCH_SIZE in *. split; [lia|]. split; [|reflexivity].
    intros Hnext. apply lookup_lt_is_Some_2 in Hnext as [ev' Hev'].
    apply batches_from_lookup in Hev' as [Hlt' _].
    unfold BATCH_SIZE in *. lia.
  - intros c calls. rewrite batches_from_concat, yielded_filter.
    intros [Hc Hin]%list_elem_of_filter Hall.
    apply list_elem_of_filter. split.
    + intros Hs. apply Hc. now apply (run_unacknowledged s calls).
    + destruct (run_commits s calls) as [new ->].
      apply elem_of_app. now left.
Qed.

(** *** Local sync ids *)

Lemma slice_from_nat {A} n (l : list A) :
  slice_from (Some (Z.of_nat n)) l = drop n l.
Proof.
  unfold slice_from. cbn [default]. unfold id.
  destruct (Z.ltb_spec (Z.of_nat n) 0) as [Hneg|_]; [lia|].
  destruct (le_lt_dec n (length l)) as [Hle|Hgt].
  - rewrite Z.min_l by lia. now rewrite Nat2Z.id.
  - rewrite Z.min_r by lia. rewrite Nat2Z.id.
    now rewrite !drop_ge by lia.
Qed.

Lemma filter_zip_seq {A} (l : list A) a n :
  (filter (fun p => n < p.1) (zip (seq a (length l)) l)).*2
  = drop (n + 1 - a) l.
Proof.
  revert a. induction l as [|x l IH]; intros a; cbn.
  - now rewrite drop_nil.
  - destruct (decide (n < a)) as [Hlt|Hge].
    + cbn. rewrite IH. replace (n + 1 - a) with 0 by lia.
      replace (n + 1 - S a) with 0 by lia. reflexivity.
    + rewrite IH. replace (n + 1 - a) with (S (n + 1 - S a)) by lia.
      reflexivity.
Qed.

Lemma zip_seq_app {A} (l1 l2 : list A) a :
  zip (seq a (length (l1 ++ l2))) (l1 ++ l2)
  = zip (seq a (length l1)) l1
    ++ zip (seq (a + length l1) (length l2)) l2.
Proof.
  revert a. induction l1 as [|x l1 IH]; intros a; cbn.
  - now rewrite Nat.add_0_r.
  - f_equal. rewrite IH. now rewrite Nat.add_succ_r.
Qed.

Lemma zip_seq_ids {A} (l : list A) a :
  (zip (seq a (length l)) l).*1 = seq a (length l).
Proof. apply fst_zip. now rewrite length_seq. Qed.

Lemma seq_increasing a n : StronglySorted lt (seq a n).
Proof.
  revert a. induction n as [|n IH]; intros a; cbn; constructor.
  - apply IH.
  - apply Forall_forall. intros j Hj%elem_of_seq. lia.
Qed.

(** C3: for a sync cursor [since] that the store returned earlier (the
    cursor of any state [s0] of the store), [getLocalCommitsEvent(since)]
    returns exactly the commits whose local sync id is greater than the
    counter that [since] encodes, in the order of insertion, with the
    current sync cursor; without a cursor it returns all the commits. *)
Theorem getLocalCommitsEvent_since s0 s :
  (exists ev,
      getLocalCommitsEvent (Some (syncCursor s0)) s = Ok (ev, s)
      /\ getSyncCounter (syncCursor s0) = Some (Z.of_nat (length (commits s0)))
      /\ ev_commits ev
         = (filter (fun p => length (commits s0) < p.1) (localSyncIds s)).*2
      /\ ev_syncId ev = Some (syncCursor s))
  /\ getLocalCommitsEvent None s
     = Ok ({| ev_commits := commits s; ev_syncId := Some (syncCursor s) |}, s).
Proof.
  split; [|reflexivity].
  eexists. split; [reflexivity|]. cbn [ev_commits ev_syncId].
  unfold getSyncCounter, syncCursor. rewrite parseInt36_toString36.
  split; [reflexivity|]. split; [|reflexivity].
  unfold localSyncIds. rewrite filter_zip_seq, slice_from_nat.
  f_equal. lia.
Qed.

(** *** Adding commits *)

Lemma ordered_set_add_elem (refs : list string) x r :
  r ∈ ordered_set_add x refs <-> r = x \/ r ∈ refs.
Proof.
  unfold ordered_set_add. destruct (decide (x ∈ refs)); set_solver.
Qed.

(** The refs of an ack are those of the commits of the call. *)
Lemma ack_refs_elem cs (acc : list string) r :
  r ∈ foldl (fun a c => ordered_set_add (ref c) a) acc cs
  <-> r ∈ acc \/ r ∈ ref <$> cs.
Proof.
  revert acc. induction cs as [|c cs IH]; intros acc; cbn.
  - set_solver.
  - rewrite IH, ordered_set_add_elem. set_solver.
Qed.

Lemma filter_none {A} (P : A -> Prop) `{forall x, Decision (P x)} (l : list A) :
  (forall x, x ∈ l -> ~ P x) -> filter P l = [].
Proof.
  induction l as [|x l IH]; intros Hn; [reflexivity|].
  rewrite filter_cons_False by (apply Hn; constructor).
  apply IH. intros y Hy. apply Hn. now constructor.
Qed.

(** C1: [addCommits] is idempotent: calling it twice with the same
    arguments leaves the store, every field of it, as one call does, and
    returns the same ack; commits whose refs are all known are ignored
    without an error, the store staying as it is.  In every call, with a
    sync id or without one and whatever else the call carries, a commit
    whose ref is known is neither rejected nor stored again: the call
    returns its ack, the stored sequence grows at its end by commits of
    the call whose refs were not known, one for each such ref, and the
    entries that the sequence has for a known ref are those it had. *)
Theorem addCommits_idempotent cs r s :
  bind (addCommits cs r) (fun _ => addCommits cs r) s = addCommits cs r s
  /\ ((forall c, c ∈ cs -> ref c ∈ localCommitRefs s) ->
      exists ack, addCommits cs None s = Ok (ack, s))
  /\ exists ack s' new,
       addCommits cs r s = Ok (ack, s')
       /\ commits s' = commits s ++ new
       /\ (forall d, d ∈ new -> d ∈ cs /\ ref d ∉ localCommitRefs s)
       /\ NoDup (ref <$> new)
       /\ (forall d, d ∈ cs -> ref d ∉ localCommitRefs s ->
             ref d ∈ ref <$> new)
       /\ (forall known : string, known ∈ localCommitRefs s ->
             filter (fun d => ref d = known) (commits s')
             = filter (fun d => ref d = known) (commits s)).
Proof.
  split; [|split].
  - unfold bind. rewrite (addCommits_unfold cs r s). cbn beta iota.
    rewrite addCommits_unfold. cbn.
    rewrite (accepted_known (list_to_set (ref <$> cs) ∪ localCommitRefs s))
      by set_solver.
    rewrite app_nil_r.
    f_equal. f_equal. destruct r; store_eq.
  - intros Hknown. rewrite addCommits_unfold.
    rewrite accepted_known by assumption. eexists. f_equal. f_equal.
    store_eq.
  - do 2 eexists. exists (accepted (localCommitRefs s) cs).
    split; [apply addCommits_unfold|]. cbn.
    split; [reflexivity|].
    split; [intros d; apply accepted_fresh|].
    split; [apply accepted_NoDup|].
    split.
    + intros d Hd Hnew. apply accepted_refs; [|assumption].
      apply list_elem_of_fmap. now exists d.
    + intros known Hknown.
      rewrite filter_app, (filter_none _ (accepted (localCommitRefs s) cs));
        [apply app_nil_r|].
      intros d [_ Hd]%accepted_fresh Heq. congruence.
Qed.

(** C4: after [addCommits(commits, remoteSyncId)] with a sync id, every
    commit of the call is marked as synced, no later iteration of
    [getCommitsForRemote] yields a commit with one of their refs, and
    [getRemoteSyncInfo] reports the sync id as the last sync cursor. *)
Theorem addCommits_remoteSyncId cs id s :
  exists ack s',
    addCommits cs (Some id) s = Ok (ack, s')
    /\ (forall c, c ∈ cs -> ref c ∈ syncedCommits s')
    /\ (forall (calls : list call) d,
          d ∈ yielded (run s' calls) -> ref d ∉ ref <$> cs)
    /\ getRemoteSyncInfo s'
       = Ok ({| info_localStoreId := localStoreId s;
                info_lastSyncCursor := Some id |}, s').
Proof.
  do 2 eexists. split; [apply addCommits_unfold|].
  split; [|split; [|reflexivity]].
  - intros c Hc. cbn. set_solver.
  - intros calls d Hd%yielded_after_synced. cbn in Hd. set_solver.
Qed.

(** C5: [addCommits] with a sync id and a commit whose ref the store
    already holds is an acknowledgement: the call returns its ack, which
    lists the ref; the stored sequence has the same entries for that ref
    as before; the ref is marked as synced; the last sync cursor is the
    sync id of the call. *)
Theorem addCommits_existing_ref_is_ack cs id s c :
  reachable s -> c ∈ cs -> ref c ∈ ref <$> commits s ->
  exists ack s',
    addCommits cs (Some id) s = Ok (ack, s')
    /\ ref c ∈ ack_refs ack
    /\ filter (fun d => ref d = ref c) (commits s')
       = filter (fun d => ref d = ref c) (commits s)
    /\ ref c ∈ syncedCommits s'
    /\ lastRemoteSyncCursor s' = Some id.
Proof.
  intros Hreach Hc Hstored.
  apply reachable_consistent in Hreach. apply Hreach in Hstored.
  do 2 eexists. split; [apply addCommits_unfold|]. cbn.
  split; [apply ack_refs_elem; set_solver|].
  split; [|split; [set_solver | reflexivity]].
  rewrite filter_app, (filter_none _ (accepted (localCommitRefs s) cs));
    [apply app_nil_r|].
  intros d [_ Hd]%accepted_fresh Heq. congruence.
Qed.

(** *** Acknowledging *)

(** C6: [acknowledgeCommits(refs, remoteSyncId)] marks the refs as synced,
    which keeps commits with these refs out of every later iteration of
    [getCommitsForRemote], and sets the last sync cursor; the commit
    sequence with all its records, the known refs and the other fields of
    the store stay as they are. *)
Theorem acknowledgeCommits_frame (refs : list string) id s :
  exists s',
    acknowledgeCommits refs id s = Ok (tt, s')
    /\ syncedCommits s' = list_to_set refs ∪ syncedCommits s
    /\ (forall (calls : list call) d,
          d ∈ yielded (run s' calls) -> ref d ∉ refs)
    /\ lastRemoteSyncCursor s' = Some id
    /\ commits s' = commits s
    /\ localCommitRefs s' = localCommitRefs s
    /\ set_lastRemoteSyncCursor (lastRemoteSyncCursor s)
         (set_syncedCommits (syncedCommits s) s') = s.
Proof.
  eexists. split; [apply acknowledgeCommits_unfold|].
  split; [reflexivity|]. split.
  - intros calls d Hd%yielded_after_synced. cbn in Hd. set_solver.
  - do 3 (split; [reflexivity|]). store_eq.
Qed.

(** C10: [acknowledgeCommits] does not look the refs up: for any refs it
    returns, marks them all as synced and sets the last sync cursor.  So
    a commit unknown to a store, whose ref is acknowledged and which is
    added afterwards without a sync id, is stored and yet is yielded by
    no iteration of [getCommitsForRemote]. *)
Theorem acknowledgeCommits_unknown_refs (refs : list string) id s :
  exists s1,
    acknowledgeCommits refs id s = Ok (tt, s1)
    /\ (forall r, r ∈ refs -> r ∈ syncedCommits s1)
    /\ lastRemoteSyncCursor s1 = Some id
    /\ (forall c (calls1 calls2 : list call),
          reachable s -> ref c ∈ refs -> ref c ∉ ref <$> commits s ->
          exists ack s2,
            addCommits [c] None (run s1 calls1) = Ok (ack, s2)
            /\ ref c ∈ ref <$> commits s2
            /\ (calls1 = [] -> c ∈ commits s2)
            /\ forall d, d ∈ yielded (run s2 calls2) -> ref d <> ref c).
Proof.
  eexists. split; [apply acknowledgeCommits_unfold|].
  split; [cbn; set_solver|]. split; [reflexivity|].
  intros c calls1 calls2 Hreach Href Hnew.
  set (s1 := set_lastRemoteSyncCursor _ _).
  assert (Hs1 : consistent s1) by now apply reachable_consistent in Hreach.
  assert (Hsync : ref c ∈ syncedCommits s1) by (cbn; set_solver).
  do 2 eexists. split; [apply addCommits_unfold|].
  set (s2 := set_lastRemoteSyncCursor _ _).
  assert (Hs2 : consistent s2).
  { pose proof (proj2 (proj2 (proj2
      (step_effect (run s1 calls1) (AddCommits [c] None))))) as H.
    unfold MemoryStore.step, state_after in H.
    rewrite addCommits_unfold in H. apply H. now apply run_consistent. }
  split; [apply Hs2; cbn; set_solver|]. split.
  - intros ->. cbn.
    destruct (decide (ref c ∈ localCommitRefs s)) as [Hin|_].
    + exfalso. apply Hnew. now apply reachable_consistent in Hin.
    + set_solver.
  - intros d Hd%yielded_after_synced Heq. apply Hd. rewrite Heq. cbn.
    now apply run_syncedCommits.
Qed.

(** *** The sync cursor *)

Lemma getSyncCounter_syncCursor s :
  getSyncCounter (syncCursor s) = Some (Z.of_nat (length (commits s))).
Proof. apply parseInt36_toString36. Qed.

(** C7: local sync ids grow strictly.  [addCommits] appends the commits it
    accepts to the sequence, so each of them gets a local sync id above
    all the ids given before, and the ids of the sequence are strictly
    increasing; the sync cursor of the ack, read in radix 36, is the
    number of stored commits after the call, and the cursor of a later
    ack is not smaller. *)
Theorem addCommits_syncId_monotonic cs r s (calls : list call) cs2 r2 :
  exists ack s',
    addCommits cs r s = Ok (ack, s')
    /\ commits s' = commits s ++ accepted (localCommitRefs s) cs
    /\ (exists news,
          localSyncIds s' = localSyncIds s ++ news
          /\ news.*2 = accepted (localCommitRefs s) cs
          /\ Forall (fun p => forall q, q ∈ localSyncIds s -> q.1 < p.1) news)
    /\ StronglySorted lt (localSyncIds s').*1
    /\ getSyncCounter (ack_syncId ack) = Some (Z.of_nat (length (commits s')))
    /\ exists ack2 s2,
         addCommits cs2 r2 (run s' calls) = Ok (ack2, s2)
         /\ exists n1 n2,
              getSyncCounter (ack_syncId ack) = Some n1
              /\ getSyncCounter (ack_syncId ack2) = Some n2
              /\ (n1 <= n2)%Z.
Proof.
  do 2 eexists. split; [apply addCommits_unfold|].
  set (s' := set_lastRemoteSyncCursor _ _).
  set (new := accepted (localCommitRefs s) cs).
  assert (Hcommits : commits s' = commits s ++ new) by reflexivity.
  split; [exact Hcommits|]. split; [|split; [|split]].
  - exists (zip (seq (1 + length (commits s)) (length new)) new).
    unfold localSyncIds. rewrite Hcommits, zip_seq_app.
    split; [reflexivity|]. split.
    + apply snd_zip. now rewrite length_seq.
    + apply Forall_forall. intros [j d] Hj [i e] Hi. cbn.
      apply (list_elem_of_fmap_2 fst) in Hj, Hi. rewrite zip_seq_ids in Hj, Hi.
      apply elem_of_seq in Hj, Hi. cbn in Hj, Hi. lia.
  - unfold localSyncIds. rewrite zip_seq_ids. apply seq_increasing.
  - exact (getSyncCounter_syncCursor s').
  - do 2 eexists. split; [apply addCommits_unfold|].
    cbn [ack_syncId]. do 2 eexists.
    split; [apply parseInt36_toString36|].
    split; [apply parseInt36_toString36|].
    destruct (run_commits s' calls) as [more ->].
    rewrite !length_app, Hcommits, length_app. lia.
Qed.

(** *** Shutting down *)

(** C8, as the store has it: [shutdown()] shuts down the remotes and the
    local stores that the store handed out and leaves the data of the
    store alone; the store keeps no closed flag, and after [shutdown()]
    every operation returns as it would have before: an operation after
    [shutdown()] comes to the same result and the same store as the
    operation followed by [shutdown()]. *)
Theorem shutdown_keeps_operations s cs r (refs : list string) id since :
  (exists s',
      shutdown s = Ok (tt, s')
      /\ remotes s' = map remote_shutdown (remotes s)
      /\ localStores s' = map local_shutdown (localStores s)
      /\ set_localStores (localStores s) (set_remotes (remotes s) s') = s)
  /\ bind shutdown (fun _ => addCommits cs r) s
     = bind (addCommits cs r) (fun a => bind shutdown (fun _ => ret a)) s
  /\ bind shutdown (fun _ => acknowledgeCommits refs id) s
     = bind (acknowledgeCommits refs id)
         (fun a => bind shutdown (fun _ => ret a)) s
  /\ bind shutdown (fun _ => getLocalCommitsEvent since) s
     = bind (getLocalCommitsEvent since)
         (fun a => bind shutdown (fun _ => ret a)) s
  /\ bind shutdown (fun _ => getRemoteSyncInfo) s
     = bind getRemoteSyncInfo (fun a => bind shutdown (fun _ => ret a)) s
  /\ bind shutdown (fun _ => getCommitsForRemote) s
     = bind getCommitsForRemote (fun a => bind shutdown (fun _ => ret a)) s
  /\ is_throw (bind shutdown (fun _ => addCommits cs r) s) = false
  /\ is_throw (bind shutdown (fun _ => acknowledgeCommits refs id) s) = false
  /\ is_throw (bind shutdown (fun _ => getLocalCommitsEvent since) s) = false
  /\ is_throw (bind shutdown (fun _ => getRemoteSyncInfo) s) = false
  /\ is_throw (bind shutdown (fun _ => getCommitsForRemote) s) = false.
Proof.
  split.
  { eexists. split; [reflexivity|]. do 2 (split; [reflexivity|]). store_eq. }
  unfold bind, MemoryStore.shutdown, queue_add, ret.
  rewrite !addCommits_unfold, !acknowledgeCommits_unfold.
  unfold getLocalCommitsEvent, getRemoteSyncInfo, getCommitsForRemote,
    bind, queue_add, ret.
  cbn beta iota.
  split; [f_equal; f_equal; try reflexivity; store_eq|].
  split; [f_equal; f_equal; try reflexivity; store_eq|].
  repeat split; reflexivity.
Qed.

(** *** Further properties of the store *)

Lemma accepted_app (known : gset string) cs1 cs2 :
  accepted known (cs1 ++ cs2)
  = accepted known cs1 ++ accepted (list_to_set (ref <$> cs1) ∪ known) cs2.
Proof.
  revert known. induction cs1 as [|c cs1 IH]; intros known; cbn.
  - f_equal. set_solver.
  - destruct (decide (ref c ∈ known)) as [Hin|Hout].
    + rewrite IH. do 2 f_equal. set_solver.
    + rewrite IH. cbn. do 3 f_equal. set_solver.
Qed.

Lemma step_commits s (k : call) :
  commits (step s k)
  = commits s ++ match k with
                 | AddCommits cs _ => accepted (localCommitRefs s) cs
                 | _ => []
                 end.
Proof.
  destruct k as [cs r|refs id|since| | |l|be| |v|v|f g];
    unfold step, state_after;
    rewrite ?addCommits_unfold, ?acknowledgeCommits_unfold;
    try (cbn; now rewrite ?app_nil_r).
  unfold getRemote. destruct (online s); cbn; now rewrite app_nil_r.
Qed.

Lemma step_refs_NoDup s (k : call) :
  consistent s -> NoDup (ref <$> commits s) ->
  NoDup (ref <$> commits (step s k)).
Proof.
  intros Hc Hnd. rewrite step_commits, fmap_app. apply NoDup_app.
  split; [exact Hnd|]. split.
  - intros r Hr Hnew. apply Hc in Hr.
    destruct k; try (now inversion Hnew).
    apply list_elem_of_fmap in Hnew as (d & -> & Hd).
    apply accepted_fresh in Hd as [_ Hd]. contradiction.
  - destruct k; try constructor. apply accepted_NoDup.
Qed.

Lemma reachable_commits_NoDup s :
  reachable s -> NoDup (ref <$> commits s).
Proof.
  intros (ch & id & on & calls & ->).
  assert (H : forall s0 : Store,
             consistent s0 -> NoDup (ref <$> commits s0) ->
             NoDup (ref <$> commits (run s0 calls))).
  { induction calls as [|k calls IH]; intros s0 Hc Hnd; [exact Hnd|].
    rewrite run_cons. apply IH.
    - now apply step_effect.
    - now apply step_refs_NoDup. }
  apply H.
  - intros r. cbn. set_solver.
  - constructor.
Qed.

Lemma reachable_run s (calls : list call) :
  reachable s -> reachable (run s calls).
Proof.
  intros (ch & id & on & before & ->). exists ch, id, on, (before ++ calls).
  unfold run. now rewrite foldl_app.
Qed.

Lemma NoDup_fmap_eq {A B} (f : A -> B) (l : list A) x y :
  NoDup (f <$> l) -> x ∈ l -> y ∈ l -> f x = f y -> x = y.
Proof.
  induction l as [|a l IH]; cbn; intros Hnd Hx Hy Heq; [inversion Hx|].
  apply NoDup_cons in Hnd as [Ha Hnd].
  apply elem_of_cons in Hx as [->|Hx]; apply elem_of_cons in Hy as [->|Hy].
  - reflexivity.
  - exfalso. apply Ha. rewrite Heq. apply list_elem_of_fmap. now exists y.
  - exfalso. apply Ha. rewrite <- Heq. apply list_elem_of_fmap. now exists x.
  - now apply IH.
Qed.

(** X1: in a reachable store no two commits carry the same ref, and the
    refs that the store knows are exactly the refs of its commits.  Of the
    commits that arrive with one ref only the first is stored: a stored
    commit remains, whatever is called, the only stored commit with its
    ref; and the first commit of a call to carry a ref that the store does
    not know is stored and remains the only stored commit with that ref,
    whatever follows it in the call and whatever is called afterwards. *)
Theorem reachable_refs_NoDup s :
  reachable s ->
  NoDup (ref <$> commits s)
  /\ (forall r, r ∈ localCommitRefs s <-> r ∈ ref <$> commits s)
  /\ (forall (calls : list call) c d,
        c ∈ commits s ->
        d ∈ commits (run s calls) -> ref d = ref c -> d = c)
  /\ (forall pre c post r (calls : list call) d,
        ref c ∉ localCommitRefs s -> ref c ∉ ref <$> pre ->
        c ∈ commits (run s (AddCommits (pre ++ c :: post) r :: calls))
        /\ (d ∈ commits (run s (AddCommits (pre ++ c :: post) r :: calls)) ->
            ref d = ref c -> d = c)).
Proof.
  intros Hreach.
  assert (Hkept : forall (s0 : Store) (calls : list call) c d,
             reachable s0 -> c ∈ commits s0 ->
             d ∈ commits (run s0 calls) -> ref d = ref c -> d = c).
  { intros s0 calls c d Hr Hc Hd Heq.
    apply (NoDup_fmap_eq ref (commits (run s0 calls))); [|assumption| |assumption].
    - now apply reachable_commits_NoDup, reachable_run.
    - destruct (run_commits s0 calls) as [new ->]. apply elem_of_app. now left. }
  split; [now apply reachable_commits_NoDup|].
  split; [now apply reachable_consistent|].
  split; [intros calls c d; now apply Hkept|].
  intros pre c post r calls d Hnew Hpre. rewrite run_cons.
  assert (Hc : c ∈ commits (step s (AddCommits (pre ++ c :: post) r))).
  { rewrite step_commits, accepted_app. cbn.
    rewrite decide_False by set_solver.
    apply elem_of_app. right. apply elem_of_app. right. constructor. }
  split.
  - destruct (run_commits (step s (AddCommits (pre ++ c :: post) r)) calls)
      as [new ->].
    apply elem_of_app. now left.
  - apply Hkept; [|exact Hc].
    apply (reachable_run s [AddCommits (pre ++ c :: post) r]), Hreach.
Qed.

(** X2: the commit sequence is append-only under every sequence of calls:
    a stored commit keeps its position, hence its local sync id, and its
    content, and the sequence never gets shorter. *)
Theorem commits_append_only s (calls : list call) i c :
  commits s !! i = Some c ->
  commits (run s calls) !! i = Some c
  /\ (i + 1, c) ∈ localSyncIds (run s calls)
  /\ length (commits s) <= length (commits (run s calls)).
Proof.
  intros Hi. destruct (run_commits s calls) as [new Hnew].
  assert (Hrun : commits (run s calls) !! i = Some c)
    by (rewrite Hnew; now apply lookup_app_l_Some).
  split; [exact Hrun|]. split; [|rewrite Hnew, length_app; lia].
  unfold localSyncIds. apply list_elem_of_lookup. exists i.
  apply lookup_zip_with_Some. exists (i + 1), c.
  split; [reflexivity|]. split; [|exact Hrun].
  apply lookup_seq. split; [lia|]. now apply lookup_lt_Some in Hrun.
Qed.

Lemma fold_ordered_set_add_NoDup cs (acc : list string) :
  NoDup acc -> NoDup (foldl (fun a c => ordered_set_add (ref c) a) acc cs).
Proof.
  revert acc. induction cs as [|c cs IH]; intros acc Hacc; [exact Hacc|].
  cbn. apply IH. unfold ordered_set_add.
  destruct (decide (ref c ∈ acc)); [exact Hacc|].
  apply NoDup_app. split; [exact Hacc|]. split; [|apply NoDup_singleton].
  intros x Hx ->%list_elem_of_singleton. contradiction.
Qed.

Lemma fold_ordered_set_add_distinct cs (acc : list string) :
  NoDup (acc ++ (ref <$> cs)) ->
  foldl (fun a c => ordered_set_add (ref c) a) acc cs = acc ++ (ref <$> cs).
Proof.
  revert acc. induction cs as [|c cs IH]; intros acc Hnd; cbn.
  - now rewrite app_nil_r.
  - cbn in Hnd. unfold ordered_set_add.
    rewrite decide_False.
    + rewrite IH; rewrite <- app_assoc; [reflexivity | exact Hnd].
    + apply NoDup_app in Hnd as (_ & Hdisj & _).
      intros Hin. apply (Hdisj _ Hin). constructor.
Qed.

(** X3: the refs of the ack of [addCommits] are those of the commits of the
    call, known to the store or not, each once; when the commits of the
    call have distinct refs they are listed in the order of the call. *)
Theorem addCommits_ack_refs cs r s :
  exists ack s',
    addCommits cs r s = Ok (ack, s')
    /\ NoDup (ack_refs ack)
    /\ (forall x, x ∈ ack_refs ack <-> x ∈ ref <$> cs)
    /\ (NoDup (ref <$> cs) -> ack_refs ack = ref <$> cs).
Proof.
  do 2 eexists. split; [apply addCommits_unfold|]. cbn [ack_refs].
  split; [apply fold_ordered_set_add_NoDup; constructor|]. split.
  - intros x. rewrite ack_refs_elem. set_solver.
  - intros Hnd. now rewrite fold_ordered_set_add_distinct.
Qed.

(** X4: reading with the cursor of an earlier state returns what was
    appended since: the commits of the store are those of the earlier state
    followed by the commits of the event; reading again with the cursor of
    that event returns no commit. *)
Theorem getLocalCommitsEvent_incremental s0 (calls : list call) :
  exists ev ev',
    getLocalCommitsEvent (Some (syncCursor s0)) (run s0 calls)
    = Ok (ev, run s0 calls)
    /\ commits (run s0 calls) = commits s0 ++ ev_commits ev
    /\ getLocalCommitsEvent (ev_syncId ev) (run s0 calls)
       = Ok (ev', run s0 calls)
    /\ ev_commits ev' = []
    /\ ev_syncId ev' = ev_syncId ev.
Proof.
  do 2 eexists. split; [reflexivity|]. cbn [ev_commits ev_syncId].
  rewrite !getSyncCounter_syncCursor, !slice_from_nat.
  split; [|split; [reflexivity|split; [|reflexivity]]].
  - destruct (run_commits s0 calls) as [new ->].
    now rewrite drop_app_length.
  - cbn [ev_commits]. rewrite getSyncCounter_syncCursor, slice_from_nat.
    apply drop_all.
Qed.

(** X5: a cursor is never rejected.  One that does not read as a radix-36
    number gives all the commits, one whose counter is at or past the end
    gives none, and a negative counter [-k] gives the last [k] commits. *)
Theorem getLocalCommitsEvent_any_cursor (cursor : string) s :
  exists ev,
    getLocalCommitsEvent (Some cursor) s = Ok (ev, s)
    /\ (getSyncCounter cursor = None -> ev_commits ev = commits s)
    /\ (forall z, getSyncCounter cursor = Some z ->
                  (Z.of_nat (length (commits s)) <= z)%Z ->
                  ev_commits ev = [])
    /\ (forall z, getSyncCounter cursor = Some z -> (z < 0)%Z ->
                  ev_commits ev
                  = drop (length (commits s) - Z.to_nat (- z)) (commits s)).
Proof.
  eexists. split; [reflexivity|]. cbn [ev_commits]. unfold slice_from.
  split; [|split].
  - intros ->. cbn [default]. rewrite Z.ltb_irrefl, Z.min_l by lia.
    reflexivity.
  - intros z -> Hz. cbn [default]. unfold id.
    destruct (Z.ltb_spec z 0) as [Hneg|_]; [lia|].
    rewrite Z.min_r by lia. rewrite Nat2Z.id. apply drop_all.
  - intros z -> Hz. cbn [default]. unfold id.
    destruct (Z.ltb_spec z 0) as [_|Hpos]; [|lia].
    f_equal. lia.
Qed.

Lemma step_cursor s (k : call) :
  lastRemoteSyncCursor (step s k)
  = match carried_cursor k with
    | Some id => Some id
    | None => lastRemoteSyncCursor s
    end
  /\ localStoreId (step s k) = localStoreId s.
Proof.
  destruct k as [cs [id|]|refs id|since| | |l|be| |v|v|f g];
    unfold step, state_after;
    rewrite ?addCommits_unfold, ?acknowledgeCommits_unfold;
    try (split; reflexivity).
  unfold getRemote. destruct (online s); split; reflexivity.
Qed.

(** X6: the last sync cursor is the sync id of the latest call that
    carried one, whatever the ids written before it (no id is compared with
    another), and [localStoreId] never changes: [getRemoteSyncInfo] reports
    these two. *)
Theorem getRemoteSyncInfo_last_writer s (calls : list call) :
  getRemoteSyncInfo (run s calls)
  = Ok ({| info_localStoreId := localStoreId s;
           info_lastSyncCursor :=
             last_cursor (lastRemoteSyncCursor s) calls |}, run s calls).
Proof.
  unfold getRemoteSyncInfo, queue_add.
  assert (H : lastRemoteSyncCursor (run s calls)
              = last_cursor (lastRemoteSyncCursor s) calls
              /\ localStoreId (run s calls) = localStoreId s).
  { revert s. induction calls as [|k calls IH]; intros s; [split; reflexivity|].
    rewrite run_cons. destruct (IH (step s k)) as [-> ->].
    destruct (step_cursor s k) as [-> ->]. split; reflexivity. }
  destruct H as [-> ->]. reflexivity.
Qed.

(** X7: [getRemote] on a store that is offline throws [offline] and
    registers nothing; on a store that is online it registers the remote
    last, so that a later [shutdown()] shuts it down after the remotes
    registered before it. *)
Theorem getRemote_offline_or_registered (be : MemoryRemote) s :
  (online s = false ->
     getRemote be s = Throw "offline"
     /\ step s (GetRemote be) = s)
  /\ (online s = true ->
       exists s',
         bind (getRemote be) (fun _ => shutdown) s = Ok (tt, s')
         /\ remotes s'
            = map remote_shutdown (remotes s) ++ [remote_shutdown be]
         /\ commits s' = commits s).
Proof.
  split; intros Hon.
  - unfold step, state_after, getRemote. rewrite Hon. split; reflexivity.
  - unfold bind, getRemote. rewrite Hon. eexists. split; [reflexivity|].
    cbn. now rewrite map_app.
Qed.




Lemma filter_all {A} (P : A -> Prop) `{forall x, Decision (P x)} (l : list A) :
  (forall x, x ∈ l -> P x) -> filter P l = l.
Proof.
  induction l as [|x l IH]; intros Hall; [reflexivity|].
  rewrite filter_cons_True by (apply Hall; constructor).
  f_equal. apply IH. intros y Hy. apply Hall. now constructor.
Qed.

Lemma filter_not_in_prefix {A B} `{EqDecision B} (f : A -> B) (l1 l2 : list A) :
  NoDup (f <$> (l1 ++ l2)) ->
  filter (fun x => f x ∉ f <$> l1) (l1 ++ l2) = l2.
Proof.
  rewrite fmap_app. intros (_ & Hdisj & _)%NoDup_app.
  rewrite filter_app, filter_none, filter_all; [reflexivity| |].
  - intros x Hx Hin. apply (Hdisj _ Hin). now apply list_elem_of_fmap_2.
  - intros x Hx Hnot. apply Hnot. now apply list_elem_of_fmap_2.
Qed.

Lemma filter_not_in_take {A B} `{EqDecision B} (f : A -> B) n (l : list A) :
  NoDup (f <$> l) ->
  filter (fun x => f x ∉ f <$> take n l) l = drop n l.
Proof.
  intros Hnd. pose proof (filter_not_in_prefix f (take n l) (drop n l)) as H.
  rewrite take_drop in H. now apply H.
Qed.

(** X10: in a reachable store, acknowledging the refs of the first event of
    [getCommitsForRemote] takes exactly the commits of that event out of
    the next iteration: what is yielded then is what was yielded before
    without its first five commits. *)
Theorem acknowledge_first_batch s id :
  reachable s ->
  exists s',
    acknowledgeCommits (ref <$> take 5 (yielded s)) id s = Ok (tt, s')
    /\ yielded s' = drop 5 (yielded s).
Proof.
  intros Hreach. eexists. split; [apply acknowledgeCommits_unfold|].
  rewrite !yielded_filter. store_fields.
  set (u := filter (fun c => ref c ∉ syncedCommits s) (commits s)).
  assert (Hnd : NoDup (ref <$> u)).
  { apply reachable_commits_NoDup in Hreach.
    eapply sublist_NoDup; [exact Hreach|].
    apply fmap_sublist, sublist_filter. }
  rewrite <- (filter_not_in_take ref 5 u Hnd). unfold u.
  rewrite list_filter_filter. apply list_filter_iff. intros c.
  rewrite elem_of_union, elem_of_list_to_set. tauto.
Qed.

(** X11: adding commits in one call or in two consecutive calls (with the
    same optional sync id) leaves the same store. *)
Theorem addCommits_app cs1 cs2 r s :
  state_after (addCommits (cs1 ++ cs2) r) s
  = state_after (addCommits cs2 r) (state_after (addCommits cs1 r) s).
Proof.
  unfold state_after. rewrite !addCommits_unfold. cbn beta iota.
  apply store_ext; store_fields; try reflexivity.
  - rewrite accepted_app, app_assoc. do 2 f_equal.
  - rewrite fmap_app, list_to_set_app_L. set_solver.
  - rewrite fmap_app, list_to_set_app_L. destruct r; set_solver.
  - now destruct r.
Qed.

(** X12: for commits whose refs are all known, [addCommits] with a sync id
    has the effect of [acknowledgeCommits] on their refs with that id. *)
Theorem addCommits_known_is_acknowledge cs id s :
  (forall c, c ∈ cs -> ref c ∈ localCommitRefs s) ->
  state_after (addCommits cs (Some id)) s
  = state_after (acknowledgeCommits (ref <$> cs) id) s.
Proof.
  intros Hknown. unfold state_after.
  rewrite addCommits_unfold, acknowledgeCommits_unfold. cbn beta iota.
  rewrite accepted_known by exact Hknown.
  apply store_ext; store_fields; try reflexivity.
  - apply app_nil_r.
  - apply set_eq. intros x. rewrite elem_of_union, elem_of_list_to_set.
    split; [|tauto]. intros [Hx|Hx]; [|exact Hx].
    apply list_elem_of_fmap in Hx as (c & -> & Hc). now apply Hknown.
Qed.

(** X13: [addCommits] without a sync id puts into the outbound stream the
    commits it accepts, after those already there, except the ones whose
    ref is acknowledged already; a single commit with a ref that is neither
    known nor acknowledged becomes the last commit yielded. *)
Theorem addCommits_pending cs s :
  yielded (state_after (addCommits cs None) s)
  = yielded s
    ++ filter (fun c => ref c ∉ syncedCommits s)
         (accepted (localCommitRefs s) cs)
  /\ forall c, cs = [c] -> ref c ∉ localCommitRefs s ->
       ref c ∉ syncedCommits s ->
       yielded (state_after (addCommits cs None) s) = yielded s ++ [c].
Proof.
  assert (H : yielded (state_after (addCommits cs None) s)
              = yielded s
                ++ filter (fun c => ref c ∉ syncedCommits s)
                     (accepted (localCommitRefs s) cs)).
  { unfold state_after. rewrite addCommits_unfold. cbn beta iota.
    rewrite !yielded_filter. store_fields. apply filter_app. }
  split; [exact H|]. intros c -> Hnew Hunsynced. rewrite H. cbn [accepted].
  rewrite decide_False by exact Hnew. cbn [accepted].
  now rewrite filter_cons_True.
Qed.

End MemoryStoreFacts.

(** ** The SQLite store *)

Section DocStoreFacts.
Import Js DocStore.

Context {EditMetadata Delta : Type}.
Context `{JsonE : Json EditMetadata} `{JsonD : Json Delta}.
Context {Num : Type}.
Variable numeric_affinity : string -> option Num.
Variable sql_num_leb : Num -> Num -> bool.
Variable js_num_gtb : Num -> Num -> bool.
Variable ToNumber : string -> Num.
Variable num_toString : Num -> string.
Variable order_by : list (@SqliteNodeType Num) -> list (@SqliteNodeType Num).

Local Abbreviation Row := (@SqliteNodeType Num).
Local Abbreviation Node := (DiffNode EditMetadata Delta Num).
Local Abbreviation affinity := (affinity numeric_affinity).
Local Abbreviation insert_params := (insert_params numeric_affinity).
Local Abbreviation insert_run := (insert_run numeric_affinity).
Local Abbreviation insert_all := (insert_all numeric_affinity).
Local Abbreviation add := (add numeric_affinity).
Local Abbreviation max_syncId := (max_syncId js_num_gtb ToNumber).
Local Abbreviation is_order_by := (is_order_by sql_num_leb).
Local Abbreviation getNodesEvent :=
  (getNodesEvent numeric_affinity sql_num_leb js_num_gtb ToNumber
     num_toString order_by).

Implicit Types (n : Node) (ns : list Node) (rows : list Row).

Lemma string_compare_refl (t : string) : String.compare t t = Eq.
Proof.
  induction t as [|ch t IH]; cbn; [reflexivity|].
  unfold Ascii.compare. now rewrite N.compare_refl.
Qed.

Lemma string_ltb_irrefl (t : string) : String.ltb t t = false.
Proof. unfold String.ltb. now rewrite string_compare_refl. Qed.

(** The sort that keeps the rowid order of equal keys is an [ORDER BY],
    the order of numbers being total. *)
Lemma insert_row_Permutation r rows :
  insert_row sql_num_leb r rows ≡ₚ r :: rows.
Proof.
  induction rows as [|x rows IH]; cbn; [reflexivity|].
  destruct (sql_leb _ _ _); [reflexivity|].
  rewrite IH. apply Permutation_swap.
Qed.

Lemma insert_row_Sorted r rows :
  (forall a b, sql_num_leb a b = false -> sql_num_leb b a = true) ->
  Sorted (fun a b => sql_leb sql_num_leb (row_remoteSyncId a)
                       (row_remoteSyncId b) = true) rows ->
  Sorted (fun a b => sql_leb sql_num_leb (row_remoteSyncId a)
                       (row_remoteSyncId b) = true)
         (insert_row sql_num_leb r rows).
Proof.
  intros Htotal. induction 1 as [|x rows Hsorted IH Hhd]; cbn.
  - repeat constructor.
  - destruct (sql_leb sql_num_leb (row_remoteSyncId r) (row_remoteSyncId x))
      eqn:Hle.
    + constructor; [now constructor | now constructor].
    + assert (Hge : sql_leb sql_num_leb (row_remoteSyncId x)
                      (row_remoteSyncId r) = true).
      { revert Hle. unfold sql_leb.
        destruct (row_remoteSyncId r) as [a|a], (row_remoteSyncId x) as [b|b];
          try discriminate; try reflexivity.
        - apply Htotal.
        - unfold String.leb. rewrite (String.compare_antisym a b).
          now destruct (String.compare b a). }
      constructor; [exact IH|].
      destruct Hhd as [|y rows' Hxy]; cbn; [now constructor|].
      destruct (sql_leb sql_num_leb (row_remoteSyncId r) (row_remoteSyncId y));
        now constructor.
Qed.

Lemma order_by_remoteSyncId_is_order_by :
  (forall a b, sql_num_leb a b = false -> sql_num_leb b a = true) ->
  is_order_by (order_by_remoteSyncId sql_num_leb).
Proof.
  intros Htotal rows. unfold DocStore.is_order_by, order_by_remoteSyncId.
  induction rows as [|r rows [IHp IHs]]; cbn [foldr].
  - split; [reflexivity | constructor].
  - split.
    + rewrite insert_row_Permutation. now constructor.
    + now apply insert_row_Sorted.
Qed.

Lemma max_syncId_fixed rows t :
  Forall (fun r => row_remoteSyncId r = VText t) rows ->
  foldl (fun syncId r =>
           if js_gtb js_num_gtb ToNumber (row_remoteSyncId r) syncId
           then row_remoteSyncId r else syncId) (VText t) rows
  = VText t.
Proof.
  induction 1 as [|r rows Hr _ IH]; [reflexivity|].
  cbn [foldl]. rewrite Hr. cbn [js_gtb]. now rewrite string_ltb_irrefl.
Qed.

Lemma max_syncId_same_key rows t :
  rows <> [] ->
  Forall (fun r => row_remoteSyncId r = VText t) rows ->
  max_syncId rows = VText t.
Proof.
  intros Hne Hall. unfold DocStore.max_syncId.
  destruct Hall as [|r rows Hr Hrows]; [contradiction|].
  cbn [foldl]. rewrite Hr. cbn [js_gtb].
  destruct t as [|ch t]; cbn; now apply max_syncId_fixed.
Qed.

(** A serializable payload comes back from its column. *)
Lemma parse_stringify_opt {A} `{Json A} (x : option A) :
  json_serializable x ->
  exists col, stringify_opt x = Ok col /\ parse_or_undefined col = Ok x.
Proof.
  destruct x as [a|]; cbn.
  - intros (t & Hs & Hp). exists (Some t). split; [assumption|].
    destruct t as [|ch t]; [now apply stringify_nonempty in Hs|].
    unfold parse_or_undefined. now rewrite Hp.
  - intros _. exists None. split; reflexivity.
Qed.

Lemma or_undefined_kept (x : option string) :
  x <> Some "" -> or_undefined x = x.
Proof. destruct x as [[|ch t]|]; [contradiction | reflexivity..]. Qed.

(** The row of a node, and the node read back from it. *)
Lemma insert_params_node_of_row sid n :
  parents_kept n ->
  json_serializable (delta n) -> json_serializable (editMetadata n) ->
  exists row,
    insert_params sid n = Ok row
    /\ row_ref row = ref n
    /\ row_remoteSyncId row = affinity sid
    /\ node_of_row row = Ok (stored_as (affinity sid) n).
Proof.
  intros (Hb & Hm & Hmb) Hd He.
  destruct (parse_stringify_opt _ Hd) as (d & Hsd & Hpd).
  destruct (parse_stringify_opt _ He) as (m & Hsm & Hpm).
  unfold DocStore.insert_params. rewrite Hsd, Hsm.
  eexists. split; [reflexivity|]. split; [reflexivity|].
  split; [reflexivity|].
  unfold node_of_row, stored_as. cbn. rewrite Hpd, Hpm.
  now rewrite !or_undefined_kept.
Qed.

(** The transaction of [add] on nodes that are new to the table. *)
Lemma insert_all_new sid ns rows (refs : list string) :
  NoDup (ref <$> ns) ->
  (forall n, n ∈ ns -> ref n ∉ row_ref <$> rows) ->
  Forall (fun n => parents_kept n /\ json_serializable (delta n)
                   /\ json_serializable (editMetadata n)) ns ->
  exists new,
    insert_all sid ns (rows, refs) = Ok (rows ++ new, refs ++ (ref <$> ns))
    /\ Forall (fun r => row_remoteSyncId r = affinity sid) new
    /\ Forall2 (fun r n => node_of_row r = Ok (stored_as (affinity sid) n))
         new ns.
Proof.
  revert rows refs. induction ns as [|n ns IH]; intros rows refs Hnd Hnew Hall.
  - exists []. cbn. rewrite !app_nil_r. repeat split; constructor.
  - cbn [fmap list_fmap] in Hnd. apply NoDup_cons in Hnd as [Hn Hnd].
    apply Forall_cons in Hall as [(Hp & Hd & He) Hall].
    destruct (insert_params_node_of_row sid n Hp Hd He)
      as (row & Hrow & Hrref & Hrkey & Hnode).
    cbn [DocStore.insert_all]. unfold DocStore.insert_run. rewrite Hrow.
    rewrite decide_False
      by (rewrite Hrref; apply Hnew; constructor).
    cbn [fst snd].
    destruct (IH (rows ++ [row]) (refs ++ [ref n]) Hnd) as
      (new & Hins & Hkeys & Hnodes); [|assumption|].
    { intros n' Hn'. rewrite fmap_app, elem_of_app. cbn.
      rewrite Hrref. intros [Hin|Hin%list_elem_of_singleton].
      - revert Hin. apply Hnew. now constructor.
      - apply Hn. rewrite <- Hin. now apply list_elem_of_fmap_2. }
    exists (row :: new). rewrite Hins.
    split; [f_equal; f_equal; now rewrite <- app_assoc|].
    split; now constructor.
Qed.

(** A node whose ref is in the table already is rejected: the primary key
    makes [insert.run] throw, the transaction is rolled back and [add]
    throws. *)
Lemma add_duplicate_ref_throws n ns sid db row :
  insert_params sid n = Ok row ->
  ref n ∈ row_ref <$> nodes db ->
  add (n :: ns) sid db = Throw "UNIQUE constraint failed: nodes.ref".
Proof.
  intros Hrow Hin. unfold DocStore.add. cbn [DocStore.insert_all fst].
  unfold DocStore.insert_run. rewrite Hrow.
  assert (Href : row_ref row = ref n).
  { revert Hrow. unfold DocStore.insert_params.
    destruct (stringify_opt (delta n)); [|discriminate].
    destruct (stringify_opt (editMetadata n)); [|discriminate].
    now intros [= <-]. }
  rewrite decide_True by now rewrite Href. reflexivity.
Qed.

(** Reading rows back, whatever their order. *)
Lemma nodes_of_rows_fmap (f : Row -> Node) rows :
  Forall (fun r => node_of_row r = Ok (f r)) rows ->
  nodes_of_rows rows = Ok (f <$> rows).
Proof.
  induction 1 as [|r rows Hr _ IH]; [reflexivity|].
  cbn. now rewrite Hr, IH.
Qed.

Lemma nodes_of_rows_Permutation (g : Node -> Node) rows rows' ns :
  Forall2 (fun r n => node_of_row r = Ok (g n)) rows ns ->
  rows' ≡ₚ rows ->
  exists ns', nodes_of_rows rows' = Ok ns' /\ ns' ≡ₚ g <$> ns.
Proof.
  intros Hread.
  set (f := fun r : Row =>
              match node_of_row r return Node with
              | Ok n => n
              | Throw _ =>
                  {| ref := row_ref r; remoteSyncId := None;
                     userId := row_userId r; clientId := row_clientId r;
                     baseRef := None; mergeRef := None; mergeBaseRef := None;
                     delta := None; editMetadata := None |}
              end).
  assert (Hf : Forall (fun r => node_of_row r = Ok (f r)) rows
               /\ f <$> rows = g <$> ns).
  { induction Hread as [|r n rows ns Hr _ [IH1 IH2]];
      [split; [constructor | reflexivity]|].
    assert (Hfr : f r = g n) by (unfold f; now rewrite Hr).
    split; [constructor; [now rewrite Hfr | exact IH1]|].
    cbn. now rewrite Hfr, IH2. }
  destruct Hf as [Hall Heq]. intros Hperm.
  exists (f <$> rows'). split.
  - apply nodes_of_rows_fmap. now rewrite Hperm.
  - rewrite <- Heq. now apply fmap_Permutation.
Qed.

(** C9, as the store has it: on an empty store, [add] of a list of nodes
    that is not empty, with distinct refs, no empty parent ref and
    payloads that JSON carries through, under a sync id that the
    [INTEGER] column keeps as text, returns an ack with the refs and the
    sync id, and [getNodesEvent()] then returns the same nodes, each with
    the sync id of the batch as its [remoteSyncId], and that sync id as the
    [syncId] of the event. *)
Theorem add_getNodesEvent_roundtrip ns sid :
  is_order_by order_by ->
  ns <> [] ->
  NoDup (ref <$> ns) ->
  Forall (fun n => parents_kept n /\ json_serializable (delta n)
                   /\ json_serializable (editMetadata n)) ns ->
  numeric_affinity sid = None ->
  exists ack db ev,
    add ns sid empty = Ok (ack, db)
    /\ ack_refs ack = ref <$> ns
    /\ ack_syncId ack = sid
    /\ getNodesEvent None db = Ok ev
    /\ ev_nodes ev ≡ₚ stored_as (VText sid) <$> ns
    /\ ev_syncId ev = sid.
Proof.
  intros Horder Hne Hnd Hall Htext.
  destruct (insert_all_new sid ns [] [] Hnd) as
    (new & Hins & Hkeys & Hnodes); [|assumption|].
  { intros n _ Hin. inversion Hin. }
  assert (Haff : affinity sid = VText sid)
    by (unfold DocStore.affinity; now rewrite Htext).
  rewrite Haff in Hkeys, Hnodes.
  destruct (Horder new) as [Hperm _].
  destruct (nodes_of_rows_Permutation _ _ _ _ Hnodes Hperm)
    as (ns' & Hread & Hns').
  unfold DocStore.add, empty. cbn [nodes]. rewrite Hins. cbn [app].
  do 3 eexists. split; [reflexivity|]. split; [reflexivity|].
  split; [reflexivity|].
  unfold DocStore.getNodesEvent, select_nodes. cbn [nodes].
  rewrite Hread. split; [reflexivity|]. cbn [ev_nodes ev_syncId].
  split; [exact Hns'|].
  rewrite (max_syncId_same_key (order_by new) sid); [reflexivity| |].
  - intros Hnil. rewrite Hnil in Hperm. apply Permutation_nil_l in Hperm.
    subst new. apply Forall2_nil_inv_l in Hnodes. contradiction.
  - now rewrite Hperm.
Qed.

(** *** Further properties of the SQLite store *)

Local Abbreviation Event := (@NodesEvent EditMetadata Delta Num).

Lemma insert_params_row sid n row :
  insert_params sid n = Ok row ->
  row_ref row = ref n /\ row_remoteSyncId row = affinity sid.
Proof.
  unfold DocStore.insert_params.
  destruct (stringify_opt (delta n)); [|discriminate].
  destruct (stringify_opt (editMetadata n)); [|discriminate].
  intros [= <-]. split; reflexivity.
Qed.

(** What a transaction that went through has done. *)
Lemma insert_all_inv sid ns rows (refs : list string) rows' refs' :
  insert_all sid ns (rows, refs) = Ok (rows', refs') ->
  refs' = refs ++ (ref <$> ns)
  /\ NoDup (ref <$> ns)
  /\ (forall n, n ∈ ns -> ref n ∉ row_ref <$> rows)
  /\ exists new,
       rows' = rows ++ new
       /\ row_ref <$> new = ref <$> ns
       /\ Forall (fun r => row_remoteSyncId r = affinity sid) new.
Proof.
  revert rows refs. induction ns as [|n ns IH]; intros rows refs.
  - cbn. intros [= <- <-]. rewrite app_nil_r.
    split; [reflexivity|]. split; [constructor|].
    split; [intros n Hn; inversion Hn|].
    exists []. rewrite app_nil_r. repeat split. constructor.
  - cbn [DocStore.insert_all fst snd]. unfold DocStore.insert_run.
    destruct (insert_params sid n) as [row|] eqn:Hrow; [|discriminate].
    destruct (insert_params_row _ _ _ Hrow) as [Href Hkey].
    destruct (decide (row_ref row ∈ row_ref <$> rows)) as [|Hfresh];
      [discriminate|].
    intros (-> & Hnd & Hdisj & new & -> & Hrefs & Hkeys)%IH.
    split; [cbn; now rewrite <- app_assoc|].
    assert (Hn : ref n ∉ ref <$> ns).
    { intros (m & Hm & Hin)%list_elem_of_fmap.
      apply (Hdisj m Hin). rewrite fmap_app, elem_of_app. right.
      cbn. rewrite Href, Hm. constructor. }
    split; [cbn; now constructor|]. split.
    + intros m [->|Hm]%elem_of_cons; [now rewrite <- Href|].
      intros Hin. apply (Hdisj m Hm). rewrite fmap_app, elem_of_app. now left.
    + exists (row :: new). split; [now rewrite <- app_assoc|].
      split; [cbn; now rewrite Href, Hrefs | now constructor].
Qed.

(** X14: when [add] returns, its ack lists the refs of the nodes in their
    order with the sync id of the call, the table holds its former rows
    followed by one row per node, in the order of the nodes and with the
    sync id of the call in every new row, and refs stay unique in the
    table. *)
Theorem add_appends ns sid db ack db' :
  add ns sid db = Ok (ack, db') ->
  ack_refs ack = ref <$> ns
  /\ ack_syncId ack = sid
  /\ (exists new,
        nodes db' = nodes db ++ new
        /\ row_ref <$> new = ref <$> ns
        /\ Forall (fun r => row_remoteSyncId r = affinity sid) new)
  /\ (NoDup (row_ref <$> nodes db) -> NoDup (row_ref <$> nodes db')).
Proof.
  unfold DocStore.add.
  destruct (insert_all sid ns (nodes db, [])) as [[rows refs]|] eqn:Hins;
    [|discriminate].
  intros [= <- <-]. cbn [ack_refs ack_syncId nodes].
  apply insert_all_inv in Hins
    as (-> & Hnd & Hdisj & new & -> & Hrefs & Hkeys).
  split; [reflexivity|]. split; [reflexivity|]. split; [eauto|].
  intros Hold. rewrite fmap_app, Hrefs. apply NoDup_app.
  split; [exact Hold|]. split; [|exact Hnd].
  intros x Hx (m & -> & Hm)%list_elem_of_fmap. now apply (Hdisj m Hm).
Qed.

Lemma insert_all_fresh sid ns rows (refs : list string) :
  Forall (fun n => is_throw (insert_params sid n) = false) ns ->
  NoDup (ref <$> ns) ->
  (forall n, n ∈ ns -> ref n ∉ row_ref <$> rows) ->
  exists st, insert_all sid ns (rows, refs) = Ok st.
Proof.
  revert rows refs. induction ns as [|n ns IH]; intros rows refs Hok Hnd Hnew.
  - eexists. reflexivity.
  - apply Forall_cons in Hok as [Hn Hok].
    cbn [fmap list_fmap] in Hnd. apply NoDup_cons in Hnd as [Hfirst Hnd].
    cbn [DocStore.insert_all fst snd]. unfold DocStore.insert_run.
    destruct (insert_params sid n) as [row|] eqn:Hrow; [|discriminate].
    destruct (insert_params_row _ _ _ Hrow) as [Href _].
    rewrite decide_False by (rewrite Href; apply Hnew; constructor).
    apply IH; [exact Hok | exact Hnd|].
    intros m Hm. rewrite fmap_app, elem_of_app. cbn.
    rewrite Href. intros [Hin|Hin%list_elem_of_singleton].
    + revert Hin. apply Hnew. now constructor.
    + apply Hfirst. rewrite <- Hin. now apply list_elem_of_fmap_2.
Qed.

(** X15: for nodes whose payloads [JSON.stringify] takes, [add] returns
    exactly when the refs of the nodes are distinct and none is in the
    table; otherwise it throws, whichever node of the list carries the
    offending ref. *)
Theorem add_returns_iff ns sid db :
  Forall (fun n => is_throw (insert_params sid n) = false) ns ->
  is_throw (add ns sid db) = false
  <-> NoDup (ref <$> ns)
      /\ forall n, n ∈ ns -> ref n ∉ row_ref <$> nodes db.
Proof.
  intros Hok. unfold DocStore.add. split.
  - destruct (insert_all sid ns (nodes db, [])) as [[rows refs]|] eqn:Hins;
      [|discriminate].
    intros _. apply insert_all_inv in Hins as (_ & Hnd & Hdisj & _).
    split; assumption.
  - intros [Hnd Hdisj].
    destruct (insert_all_fresh sid ns (nodes db) [] Hok Hnd Hdisj)
      as [[rows refs] ->]. reflexivity.
Qed.

Lemma insert_all_app sid ns1 ns2 st :
  insert_all sid (ns1 ++ ns2) st
  = match insert_all sid ns1 st with
    | Ok st1 => insert_all sid ns2 st1
    | Throw e => Throw e
    end.
Proof.
  revert st. induction ns1 as [|n ns1 IH]; intros st; [reflexivity|].
  cbn [app DocStore.insert_all].
  destruct (insert_run sid n st.1); [apply IH | reflexivity].
Qed.

Lemma insert_all_refs sid ns rows (refs : list string) :
  insert_all sid ns (rows, refs)
  = match insert_all sid ns (rows, []) with
    | Ok (rows', r) => Ok (rows', refs ++ r)
    | Throw e => Throw e
    end.
Proof.
  revert rows refs. induction ns as [|n ns IH]; intros rows refs.
  - cbn. now rewrite app_nil_r.
  - cbn [DocStore.insert_all fst snd].
    destruct (insert_run sid n rows) as [rows1|]; [|reflexivity].
    rewrite (IH rows1 (refs ++ [ref n])), (IH rows1 ([] ++ [ref n])).
    destruct (insert_all sid ns (rows1, [])) as [[rows' r]|]; [|reflexivity].
    now rewrite <- app_assoc.
Qed.

(** X16: two consecutive [add]s under one sync id store what one [add] of
    the two lists together stores, and the refs of the two acks together
    are the refs of its ack. *)
Theorem add_app ns1 ns2 sid db a1 db1 a2 db2 :
  add ns1 sid db = Ok (a1, db1) ->
  add ns2 sid db1 = Ok (a2, db2) ->
  add (ns1 ++ ns2) sid db
  = Ok ({| ack_refs := ack_refs a1 ++ ack_refs a2; ack_syncId := sid |}, db2).
Proof.
  unfold DocStore.add. rewrite insert_all_app.
  destruct (insert_all sid ns1 (nodes db, [])) as [[rows1 refs1]|];
    [|discriminate].
  intros [= <- <-]. cbn [nodes]. rewrite (insert_all_refs sid ns2 rows1 refs1).
  destruct (insert_all sid ns2 (rows1, [])) as [[rows2 refs2]|];
    [|discriminate].
  intros [= <- <-]. reflexivity.
Qed.

Lemma or_undefined_not_empty (x : option string) :
  or_undefined x <> Some "".
Proof. destruct x as [[|ch t]|]; discriminate. Qed.

Lemma nodes_of_rows_inv rows ns :
  nodes_of_rows rows = Ok ns ->
  Forall2 (fun r n => node_of_row r = Ok n) rows ns.
Proof.
  revert ns. induction rows as [|r rows IH]; intros ns; cbn.
  - intros [= <-]. constructor.
  - destruct (node_of_row r) as [n|] eqn:Hn; [|discriminate].
    destruct (nodes_of_rows rows) as [ns'|]; [|discriminate].
    intros [= <-]. constructor; [exact Hn | now apply IH].
Qed.

Lemma node_of_row_fields r n :
  node_of_row r = Ok n ->
  ref n = row_ref r /\ remoteSyncId n = Some (row_remoteSyncId r)
  /\ parents_kept n.
Proof.
  unfold node_of_row.
  destruct (parse_or_undefined (row_delta r)); [|discriminate].
  destruct (parse_or_undefined (row_editMetadata r)); [|discriminate].
  intros [= <-]. cbn. unfold parents_kept. cbn.
  repeat split; apply or_undefined_not_empty.
Qed.


Lemma string_leb_refl (t : string) : String.leb t t = true.
Proof. unfold String.leb. now rewrite string_compare_refl. Qed.

Lemma string_ltb_not_leb (a b : string) :
  String.ltb a b = true -> String.leb b a = false.
Proof.
  unfold String.ltb, String.leb. rewrite (String.compare_antisym b a).
  destruct (String.compare a b); cbn; congruence.
Qed.

Lemma string_not_ltb_leb (a b : string) :
  String.ltb a b = false -> String.leb b a = true.
Proof.
  unfold String.ltb, String.leb. rewrite (String.compare_antisym b a).
  destruct (String.compare a b); cbn; congruence.
Qed.

Lemma string_compare_lt_trans (a b c : string) :
  String.compare a b = Lt -> String.compare b c = Lt ->
  String.compare a c = Lt.
Proof.
  revert b c. induction a as [|x a IH]; intros [|y b] [|z c]; cbn;
    try discriminate; try reflexivity.
  unfold Ascii.compare.
  destruct (N.compare_spec (N_of_ascii x) (N_of_ascii y)) as [Hxy|Hxy|Hxy];
    try discriminate;
    destruct (N.compare_spec (N_of_ascii y) (N_of_ascii z)) as [Hyz|Hyz|Hyz];
    try discriminate; intros Hab Hbc.
  - rewrite Hxy, Hyz, N.compare_refl. now apply (IH b c).
  - rewrite Hxy. now apply N.compare_lt_iff in Hyz as ->.
  - rewrite <- Hyz. now apply N.compare_lt_iff in Hxy as ->.
  - assert (H : (N_of_ascii x < N_of_ascii z)%N) by lia.
    now apply N.compare_lt_iff in H as ->.
Qed.

Lemma string_leb_ltb_trans (a b c : string) :
  String.leb a b = true -> String.ltb b c = true -> String.leb a c = true.
Proof.
  unfold String.leb, String.ltb.
  destruct (String.compare a b) eqn:Hab; try discriminate; intros _ Hbc.
  - apply String.compare_eq_iff in Hab as ->.
    now destruct (String.compare b c).
  - destruct (String.compare b c) eqn:Hbc'; try discriminate.
    now rewrite (string_compare_lt_trans a b c).
Qed.

(** X18: with sync ids that the column keeps as text, the second of two
    batches is what [getNodesEvent] returns for the sync id of the first:
    after [add] of a first list under [t1] and of a second, non-empty list
    under a greater [t2], [getNodesEvent(t1)] returns the nodes of the
    second list, each with [t2] as its [remoteSyncId], and [t2] as the
    [syncId] of the event. *)
Theorem getNodesEvent_since_batch ns1 ns2 t1 t2 :
  is_order_by order_by ->
  numeric_affinity t1 = None -> numeric_affinity t2 = None ->
  String.ltb t1 t2 = true ->
  ns2 <> [] ->
  NoDup (ref <$> (ns1 ++ ns2)) ->
  Forall (fun n => parents_kept n /\ json_serializable (delta n)
                   /\ json_serializable (editMetadata n)) (ns1 ++ ns2) ->
  exists a1 db1 a2 db2 ev,
    add ns1 t1 empty = Ok (a1, db1)
    /\ add ns2 t2 db1 = Ok (a2, db2)
    /\ getNodesEvent (Some t1) db2 = Ok ev
    /\ ev_nodes ev ≡ₚ stored_as (VText t2) <$> ns2
    /\ ev_syncId ev = t2.
Proof.
  intros Horder Ht1 Ht2 Hlt Hne Hnd Hall.
  rewrite fmap_app in Hnd. apply NoDup_app in Hnd as (Hnd1 & Hdisj & Hnd2).
  apply Forall_app in Hall as [Hall1 Hall2].
  assert (Haff1 : affinity t1 = VText t1)
    by (unfold DocStore.affinity; now rewrite Ht1).
  assert (Haff2 : affinity t2 = VText t2)
    by (unfold DocStore.affinity; now rewrite Ht2).
  destruct (insert_all_new t1 ns1 [] [] Hnd1) as
    (new1 & Hins1 & Hkeys1 & _); [|assumption|].
  { intros n _ Hin. inversion Hin. }
  pose proof Hins1 as (_ & _ & _ & new1' & Hnew1 & Hrefs1 & _)%insert_all_inv.
  cbn [app] in Hnew1, Hins1. subst new1'.
  destruct (insert_all_new t2 ns2 new1 [] Hnd2) as
    (new2 & Hins2 & Hkeys2 & Hnodes2); [|assumption|].
  { intros n Hn Hin. rewrite Hrefs1 in Hin. apply (Hdisj _ Hin).
    now apply list_elem_of_fmap_2. }
  rewrite Haff1 in Hkeys1. rewrite Haff2 in Hkeys2, Hnodes2.
  assert (Hsel : filter (fun r => negb (sql_leb sql_num_leb (row_remoteSyncId r)
                                          (affinity t1))) (new1 ++ new2)
                 = new2).
  { rewrite Haff1, filter_app, filter_none, filter_all; [reflexivity| |].
    - intros r Hr. rewrite Forall_forall in Hkeys2. rewrite (Hkeys2 r Hr).
      cbn. now rewrite (string_ltb_not_leb t1 t2).
    - intros r Hr. rewrite Forall_forall in Hkeys1. rewrite (Hkeys1 r Hr).
      cbn. now rewrite string_leb_refl. }
  destruct (Horder new2) as [Hperm _].
  destruct (nodes_of_rows_Permutation _ _ _ _ Hnodes2 Hperm)
    as (ns' & Hread & Hns').
  exists {| ack_refs := ref <$> ns1; ack_syncId := t1 |}, {| nodes := new1 |},
    {| ack_refs := ref <$> ns2; ack_syncId := t2 |},
    {| nodes := new1 ++ new2 |}.
  eexists.
  split; [unfold DocStore.add, empty; cbn [nodes]; now rewrite Hins1|].
  split; [unfold DocStore.add; cbn [nodes]; now rewrite Hins2|].
  unfold DocStore.getNodesEvent, select_nodes. cbn [nodes].
  rewrite Hsel, Hread. split; [reflexivity|]. cbn [ev_nodes ev_syncId].
  split; [exact Hns'|].
  rewrite (max_syncId_same_key (order_by new2) t2); [reflexivity| |].
  - intros Hnil. rewrite Hnil in Hperm. apply Permutation_nil_l in Hperm.
    subst new2. apply Forall2_nil_inv_l in Hnodes2. contradiction.
  - now rewrite Hperm.
Qed.

(** X19: when no row is newer than [since] (text keys, none greater than
    [since]; an empty table too), [getNodesEvent(since)] returns no node
    and the empty string as [syncId], not [since]. *)
Theorem getNodesEvent_nothing_new since db :
  is_order_by order_by ->
  numeric_affinity since = None ->
  Forall (fun r => exists k, row_remoteSyncId r = VText k
                             /\ String.leb k since = true) (nodes db) ->
  getNodesEvent (Some since) db
  = Ok ({| ev_nodes := []; ev_syncId := "" |} : Event).
Proof.
  intros Horder Htext Hold.
  unfold DocStore.getNodesEvent, select_nodes.
  rewrite filter_none.
  - destruct (Horder []) as [Hperm _]. apply Permutation_nil_r in Hperm.
    rewrite Hperm. reflexivity.
  - intros r Hr. rewrite Forall_forall in Hold.
    destruct (Hold r Hr) as (k & -> & Hle).
    unfold DocStore.affinity. rewrite Htext. cbn. now rewrite Hle.
Qed.

Lemma max_syncId_greatest rows :
  Forall (fun r => exists k, row_remoteSyncId r = VText k) rows ->
  exists m,
    max_syncId rows = VText m
    /\ Forall (fun r => exists k, row_remoteSyncId r = VText k
                                /\ String.leb k m = true) rows
    /\ (m = "" \/ exists r, r ∈ rows /\ row_remoteSyncId r = VText m).
Proof.
  intros Htext. unfold DocStore.max_syncId.
  assert (H : forall done m,
            Forall (fun r => exists k, row_remoteSyncId r = VText k
                                       /\ String.leb k m = true) done ->
            (m = "" \/ exists r, r ∈ done /\ row_remoteSyncId r = VText m) ->
            exists m',
              foldl (fun syncId r =>
                       if js_gtb js_num_gtb ToNumber (row_remoteSyncId r) syncId
                       then row_remoteSyncId r else syncId) (VText m) rows
              = VText m'
              /\ Forall (fun r => exists k, row_remoteSyncId r = VText k
                                          /\ String.leb k m' = true)
                        (done ++ rows)
              /\ (m' = "" \/ exists r, r ∈ done ++ rows
                                       /\ row_remoteSyncId r = VText m')).
  { induction Htext as [|r rows [k Hk] _ IH]; intros done m Hdone Hm.
    - exists m. rewrite app_nil_r. repeat split; assumption.
    - cbn [foldl]. rewrite Hk. cbn [js_gtb].
      replace (done ++ r :: rows) with ((done ++ [r]) ++ rows)
        by now rewrite <- app_assoc.
      destruct (String.ltb m k) eqn:Hlt.
      + apply IH.
        * apply Forall_app. split.
          -- eapply Forall_impl; [exact Hdone|].
             intros x (kx & Hx & Hle). exists kx. split; [exact Hx|].
             now apply (string_leb_ltb_trans kx m k).
          -- constructor; [|constructor]. exists k. split; [exact Hk|].
             apply string_leb_refl.
        * right. exists r. split; [|exact Hk].
          apply elem_of_app. right. constructor.
      + apply IH.
        * apply Forall_app. split; [exact Hdone|].
          constructor; [|constructor]. exists k. split; [exact Hk|].
          now apply string_not_ltb_leb.
        * destruct Hm as [->|(x & Hx & Hxm)]; [now left|].
          right. exists x. split; [|exact Hxm]. apply elem_of_app. now left. }
  destruct (H [] "") as (m & Hm & Hall & Hin);
    [constructor | now left | exists m; auto].
Qed.

(** X20: over text keys, the [syncId] of the event of [getNodesEvent] is the
    greatest [remoteSyncId] of the nodes it returns, in whatever order the
    database delivers rows with equal keys; it is the empty string when
    no node is returned. *)
Theorem getNodesEvent_syncId_greatest since db (ev : Event) :
  is_order_by order_by ->
  Forall (fun r => exists k, row_remoteSyncId r = VText k) (nodes db) ->
  getNodesEvent since db = Ok ev ->
  Forall (fun n => exists k, remoteSyncId n = Some (VText k)
                             /\ String.leb k (ev_syncId ev) = true)
         (ev_nodes ev)
  /\ (ev_syncId ev = ""
      \/ exists n, n ∈ ev_nodes ev
                   /\ remoteSyncId n = Some (VText (ev_syncId ev)))
  /\ (ev_nodes ev = [] -> ev_syncId ev = "").
Proof.
  intros Horder Htext. unfold DocStore.getNodesEvent.
  set (rows := select_nodes numeric_affinity sql_num_leb order_by since db).
  assert (Hrows : Forall (fun r => exists k, row_remoteSyncId r = VText k) rows).
  { unfold rows, select_nodes.
    destruct (Horder (match since with
                      | Some l =>
                          filter (fun r => negb (sql_leb sql_num_leb
                                                   (row_remoteSyncId r)
                                                   (affinity l))) (nodes db)
                      | None => nodes db
                      end)) as [Hperm _].
    rewrite Hperm. destruct since; [|exact Htext].
    rewrite Forall_forall in Htext. apply Forall_forall.
    intros r [_ Hr]%list_elem_of_filter. now apply Htext. }
  destruct (nodes_of_rows rows) as [ns|] eqn:Hns; [|discriminate].
  intros [= <-]. cbn [ev_nodes ev_syncId].
  apply nodes_of_rows_inv in Hns.
  destruct (max_syncId_greatest rows Hrows) as (m & -> & Hall & Hin).
  cbn [js_String]. split; [|split].
  - clear Hin Hrows. induction Hns as [|r n rows' ns' Hn _ IH];
      [constructor|].
    apply Forall_cons in Hall as [(k & Hk & Hle) Hall].
    constructor; [|now apply IH].
    apply node_of_row_fields in Hn as (_ & -> & _). rewrite Hk. eauto.
  - destruct Hin as [->|(r & Hr & Hrm)]; [now left|]. right.
    clear Hall Hrows. induction Hns as [|r' n rows' ns' Hn _ IH];
      [inversion Hr|].
    apply elem_of_cons in Hr as [->|Hr].
    + exists n. split; [constructor|].
      apply node_of_row_fields in Hn as (_ & -> & _). now rewrite Hrm.
    + destruct (IH Hr) as (n' & Hn' & Hkey). exists n'.
      split; [now constructor | exact Hkey].
  - intros ->. apply Forall2_nil_inv_r in Hns.
    destruct Hin as [->|(r & Hr & _)]; [reflexivity|].
    rewrite Hns in Hr. inversion Hr.
Qed.

(** X21: [getNodesEvent] returns one node per selected row, with the ref
    of the row: without a sync id the refs of the nodes are the refs of the
    table, each as often as in the table; with a sync id they are part of
    them. *)
Theorem getNodesEvent_refs since db (ev : Event) :
  is_order_by order_by ->
  getNodesEvent since db = Ok ev ->
  ref <$> ev_nodes ev ⊆+ row_ref <$> nodes db
  /\ (since = None -> ref <$> ev_nodes ev ≡ₚ row_ref <$> nodes db).
Proof.
  intros Horder. unfold DocStore.getNodesEvent.
  destruct (nodes_of_rows _) as [ns|] eqn:Hns; [|discriminate].
  intros [= <-]. cbn [ev_nodes].
  apply nodes_of_rows_inv in Hns.
  assert (Hrefs : ref <$> ns
                  = row_ref <$> select_nodes numeric_affinity sql_num_leb
                                  order_by since db).
  { induction Hns as [|r n rows ns' Hn _ IH]; [reflexivity|].
    cbn. apply node_of_row_fields in Hn as (-> & _). now rewrite IH. }
  rewrite Hrefs. unfold select_nodes.
  destruct since as [l|].
  - split; [|discriminate].
    destruct (Horder (filter (fun r => negb (sql_leb sql_num_leb
                                               (row_remoteSyncId r)
                                               (affinity l))) (nodes db)))
      as [Hperm _].
    rewrite Hperm.
    apply fmap_submseteq, sublist_submseteq, sublist_filter.
  - destruct (Horder (nodes db)) as [Hperm _]. rewrite Hperm.
    split; reflexivity.
Qed.

End DocStoreFacts.

(** ** The properties on the sample instance *)

Section Samples.
Import Js Sample.

Ltac by_computation := apply (bool_decide_unpack _); vm_compute; exact I.

Lemma addCommits_idempotent_witness :
  (forall c, c ∈ [commit "b"] -> MemoryStore.ref c ∈ MemoryStore.localCommitRefs store7)
  /\ (exists ack, MemoryStore.addCommits [commit "b"] None store7 = Ok (ack, store7))
  /\ exists ack s',
       MemoryStore.addCommits [commit_by "v" "b"; commit "x"] (Some "r2") store7
       = Ok (ack, s')
       /\ filter (fun d => MemoryStore.ref d = "b") (MemoryStore.commits s')
          = [commit "b"]
       /\ (commit_by "v" "b" ∉ MemoryStore.commits s')
       /\ "x" ∈ MemoryStore.ref <$> MemoryStore.commits s'.
Proof.
  assert (H : forall c, c ∈ [commit "b"] ->
              MemoryStore.ref c ∈ MemoryStore.localCommitRefs store7).
  { intros c ->%list_elem_of_singleton. by_computation. }
  split; [exact H|].
  split; [exact (proj1 (proj2 (addCommits_idempotent [commit "b"] None store7)) H)|].
  destruct (proj2 (proj2 (addCommits_idempotent
                            [commit_by "v" "b"; commit "x"] (Some "r2") store7)))
    as (ack & s' & new & Hadd & Hcommits & _ & _ & Hall & Hsame).
  assert (Hb : filter (fun d => MemoryStore.ref d = "b") (MemoryStore.commits s')
               = [commit "b"]).
  { rewrite (Hsame "b") by by_computation. vm_compute. reflexivity. }
  exists ack, s'. split; [exact Hadd|]. split; [exact Hb|]. split.
  - intros Hin.
    assert (Hf : commit_by "v" "b"
                 ∈ filter (fun d => MemoryStore.ref d = "b")
                     (MemoryStore.commits s')).
    { apply list_elem_of_filter. split; [reflexivity | exact Hin]. }
    rewrite Hb in Hf. apply list_elem_of_singleton in Hf. discriminate Hf.
  - rewrite Hcommits, fmap_app. apply elem_of_app. right.
    apply (Hall (commit "x")); [|by_computation].
    apply list_elem_of_further, list_elem_of_here.
Defined.

Lemma getCommitsForRemote_batches_witness :
  let calls := [MemoryStore.AddCommits [commit "h"] None;
                MemoryStore.AcknowledgeCommits ["c"] "r2"] in
  commit "a" ∈ MemoryStore.yielded store7
  /\ Forall (fun k => MemoryStore.acknowledges "a" k = false) calls
  /\ commit "a" ∈ MemoryStore.yielded (run store7 calls).
Proof.
  intros calls.
  destruct (getCommitsForRemote_batches close close store7)
    as (events & Hev & Hconcat & _ & Hagain).
  assert (Hy : commit "a" ∈ MemoryStore.yielded store7).
  { vm_compute. apply list_elem_of_here. }
  assert (Hc : Forall (fun k => MemoryStore.acknowledges "a" k = false) calls).
  { repeat constructor. }
  split; [exact Hy|]. split; [exact Hc|].
  apply (Hagain (commit "a") calls); [|exact Hc].
  rewrite Hconcat. vm_compute. apply list_elem_of_here.
Defined.

Lemma addCommits_remoteSyncId_witness :
  commit "a" ∈ [commit "a"; commit "x"]
  /\ exists ack s',
       MemoryStore.addCommits [commit "a"; commit "x"] (Some "r5") store7
       = Ok (ack, s')
       /\ MemoryStore.ref (commit "a") ∈ MemoryStore.syncedCommits s'
       /\ forall d, d ∈ MemoryStore.yielded s' ->
                    MemoryStore.ref d
                    ∉ MemoryStore.ref <$> [commit "a"; commit "x"].
Proof.
  assert (Hc : commit "a" ∈ [commit "a"; commit "x"])
    by apply list_elem_of_here.
  split; [exact Hc|].
  destruct (addCommits_remoteSyncId close close
              [commit "a"; commit "x"] "r5" store7)
    as (ack & s' & Hadd & Hsynced & Hnever & _).
  exists ack, s'. split; [exact Hadd|]. split; [exact (Hsynced _ Hc)|].
  exact (Hnever []).
Defined.

Lemma acknowledgeCommits_frame_witness :
  exists s',
    MemoryStore.acknowledgeCommits ["a"; "nowhere"] "r6" store7 = Ok (tt, s')
    /\ MemoryStore.commits s' = MemoryStore.commits store7
    /\ forall d, d ∈ MemoryStore.yielded s' ->
                 MemoryStore.ref d ∉ ["a"; "nowhere"].
Proof.
  destruct (acknowledgeCommits_frame close close ["a"; "nowhere"] "r6" store7)
    as (s' & Hack & _ & Hnever & _ & Hcommits & _).
  exists s'. split; [exact Hack|]. split; [exact Hcommits | exact (Hnever [])].
Defined.

Lemma addCommits_syncId_monotonic_witness :
  exists ack s' ack2 s2,
    MemoryStore.addCommits [commit "h"; commit "a"] None store7 = Ok (ack, s')
    /\ MemoryStore.getSyncCounter (MemoryStore.ack_syncId ack) = Some 8%Z
    /\ MemoryStore.addCommits [commit "i"] None
         (run s' [MemoryStore.AcknowledgeCommits ["h"] "r7"])
       = Ok (ack2, s2)
    /\ exists n1 n2,
         MemoryStore.getSyncCounter (MemoryStore.ack_syncId ack) = Some n1
         /\ MemoryStore.getSyncCounter (MemoryStore.ack_syncId ack2) = Some n2
         /\ (n1 <= n2)%Z.
Proof.
  destruct (addCommits_syncId_monotonic close close
              [commit "h"; commit "a"] None store7
              [MemoryStore.AcknowledgeCommits ["h"] "r7"] [commit "i"] None)
    as (ack & s' & Hadd & Hcommits & _ & _ & Hcursor & ack2 & s2 & Hadd2 & Hle).
  exists ack, s', ack2, s2. split; [exact Hadd|]. split; [|split].
  - rewrite Hcursor, Hcommits. reflexivity.
  - exact Hadd2.
  - exact Hle.
Defined.

Lemma addCommits_existing_ref_is_ack_witness :
  MemoryStore.reachable close close store7
  /\ commit "b" ∈ [commit "b"; commit "x"]
  /\ MemoryStore.ref (commit "b") ∈ MemoryStore.ref <$> MemoryStore.commits store7
  /\ exists ack s',
       MemoryStore.addCommits [commit "b"; commit "x"] (Some "r9") store7
       = Ok (ack, s')
       /\ MemoryStore.lastRemoteSyncCursor s' = Some "r9".
Proof.
  assert (Hr : MemoryStore.reachable close close store7).
  { exists "doc", "store", true. eexists. reflexivity. }
  assert (Hc : commit "b" ∈ [commit "b"; commit "x"])
    by apply list_elem_of_here.
  assert (Hs : MemoryStore.ref (commit "b")
               ∈ MemoryStore.ref <$> MemoryStore.commits store7).
  { vm_compute. apply list_elem_of_further, list_elem_of_here. }
  split; [exact Hr|]. split; [exact Hc|]. split; [exact Hs|].
  destruct (addCommits_existing_ref_is_ack close close
              [commit "b"; commit "x"] "r9" store7 (commit "b") Hr Hc Hs)
    as (ack & s' & Hadd & _ & _ & _ & Hcursor).
  exists ack, s'. split; [exact Hadd | exact Hcursor].
Defined.

Lemma acknowledgeCommits_unknown_refs_witness :
  MemoryStore.reachable close close store7
  /\ MemoryStore.ref (commit "z") ∈ ["z"]
  /\ (MemoryStore.ref (commit "z")
      ∉ MemoryStore.ref <$> MemoryStore.commits store7)
  /\ exists s1 ack s2,
       MemoryStore.acknowledgeCommits ["z"] "r3" store7 = Ok (tt, s1)
       /\ MemoryStore.addCommits [commit "z"] None s1 = Ok (ack, s2)
       /\ commit "z" ∈ MemoryStore.commits s2
       /\ forall d, d ∈ MemoryStore.yielded s2 ->
                    MemoryStore.ref d <> MemoryStore.ref (commit "z").
Proof.
  assert (Hr : MemoryStore.reachable close close store7).
  { exists "doc", "store", true. eexists. reflexivity. }
  assert (Hz : MemoryStore.ref (commit "z") ∈ ["z"])
    by apply list_elem_of_here.
  assert (Hn : MemoryStore.ref (commit "z")
               ∉ (MemoryStore.ref <$> MemoryStore.commits store7))
    by by_computation.
  split; [exact Hr|]. split; [exact Hz|]. split; [exact Hn|].
  destruct (acknowledgeCommits_unknown_refs close close ["z"] "r3" store7)
    as (s1 & Hack & _ & _ & Hlater).
  destruct (Hlater (commit "z") [] [] Hr Hz Hn)
    as (ack & s2 & Hadd & _ & Hstored & Hnever).
  exists s1, ack, s2. split; [exact Hack|]. split; [exact Hadd|].
  split; [exact (Hstored eq_refl) | exact Hnever].
Defined.

(** The cursor and its counter on small values. *)
Example syncCursor_values :
  toString36 0 = "0" /\ toString36 35 = "z" /\ toString36 36 = "10"
  /\ toString36 1295 = "zz" /\ MemoryStore.syncCursor store7 = "7".
Proof. repeat split. Qed.

Example getSyncCounter_values :
  parseInt36 "10" = Some 36%Z /\ parseInt36 "  -Zz" = Some (-1295)%Z
  /\ parseInt36 "1a!" = Some 46%Z /\ parseInt36 "" = None
  /\ parseInt36 "!" = None.
Proof. repeat split. Qed.

(** [slice] with a counter that is [NaN], negative, or past the end. *)
Example slice_from_values :
  slice_from None [1; 2; 3] = [1; 2; 3]
  /\ slice_from (Some (-1)%Z) [1; 2; 3] = [3]
  /\ slice_from (Some 2%Z) [1; 2; 3] = [3]
  /\ slice_from (Some 7%Z) [1; 2; 3] = [].
Proof. repeat split. Qed.

(** The batches of seven commits of which one is acknowledged: five and
    one. *)
Example getCommitsForRemote_store7 :
  MemoryStore.getCommitsForRemote store7
  = Ok ([{| MemoryStore.ev_commits :=
              [commit "a"; commit "c"; commit "d"; commit "e"; commit "f"];
            MemoryStore.ev_syncId := None |};
         {| MemoryStore.ev_commits := [commit "g"];
            MemoryStore.ev_syncId := None |}], store7).
Proof. vm_compute. reflexivity. Qed.

(** Against C8 as stated: after [shutdown()] on a new store each of the
    five operations returns without an error, and [addCommits] stores its
    commit. *)
Lemma shutdown_no_error_counterexample :
  let after {A} (m : MemoryStore.M A) :=
    MemoryStore.bind shutdown (fun _ => m) store0 in
  is_throw (after (MemoryStore.addCommits [commit "a"] None)) = false
  /\ is_throw (after (MemoryStore.acknowledgeCommits ["a"] "r1")) = false
  /\ is_throw (after (MemoryStore.getLocalCommitsEvent None)) = false
  /\ is_throw (after MemoryStore.getRemoteSyncInfo) = false
  /\ is_throw (after MemoryStore.getCommitsForRemote) = false
  /\ MemoryStore.commits
       (MemoryStore.state_after
          (MemoryStore.bind shutdown
             (fun _ => MemoryStore.addCommits [commit "a"] None)) store0)
     = [commit "a"].
Proof. repeat split. Qed.

Lemma sample_order_by : DocStore.is_order_by sql_num_leb order_by.
Proof.
  apply order_by_remoteSyncId_is_order_by.
  intros [a|] [b|]; cbn; try discriminate; try reflexivity. lia.
Defined.

Lemma add_getNodesEvent_roundtrip_witness :
  let ns := [node "a" None (Some true); node "b" (Some "a") None] in
  DocStore.is_order_by sql_num_leb order_by
  /\ ns <> []
  /\ NoDup (DocStore.ref <$> ns)
  /\ Forall (fun n => DocStore.parents_kept n
                      /\ DocStore.json_serializable (DocStore.delta n)
                      /\ DocStore.json_serializable (DocStore.editMetadata n))
            ns
  /\ numeric_affinity timestamp = None
  /\ exists ack db ev,
       Sample.add ns timestamp DocStore.empty = Ok (ack, db)
       /\ Sample.getNodesEvent None db = Ok ev
       /\ DocStore.ev_nodes ev
          ≡ₚ DocStore.stored_as (DocStore.VText timestamp) <$> ns
       /\ DocStore.ev_syncId ev = timestamp.
Proof.
  intros ns.
  assert (H1 : ns <> []) by discriminate.
  assert (H2 : NoDup (DocStore.ref <$> ns)).
  { by_computation. }
  assert (H3 : Forall (fun n =>
                 DocStore.parents_kept n
                 /\ DocStore.json_serializable (DocStore.delta n)
                 /\ DocStore.json_serializable (DocStore.editMetadata n)) ns).
  { repeat constructor; try discriminate;
      cbn; eexists; split; reflexivity. }
  assert (H4 : numeric_affinity timestamp = None) by reflexivity.
  split; [exact sample_order_by|].
  split; [exact H1|]. split; [exact H2|]. split; [exact H3|].
  split; [exact H4|].
  destruct (add_getNodesEvent_roundtrip numeric_affinity sql_num_leb
              js_num_gtb ToNumber num_toString order_by ns timestamp
              sample_order_by H1 H2 H3 H4)
    as (ack & db & ev & Hadd & _ & _ & Hget & Hnodes & Hsync).
  exists ack, db, ev. repeat split; assumption.
Defined.

(** A sync id that reads as a number is stored as that number: the ack of
    [add] carries the text of the sync id, the event of [getNodesEvent()]
    the text of the number. *)
Example add_numeric_sync_id :
  exists ack db ev,
    Sample.add [node "a" None None] "05" DocStore.empty = Ok (ack, db)
    /\ DocStore.ack_syncId ack = "05"
    /\ Sample.getNodesEvent None db = Ok ev
    /\ DocStore.ev_syncId ev = "5".
Proof. do 3 eexists. repeat split. Qed.

(** Adding the same nodes twice: the second [add] throws. *)
Example add_twice_throws :
  exists ack db,
    Sample.add [node "a" None None] timestamp DocStore.empty = Ok (ack, db)
    /\ Sample.add [node "a" None None] timestamp db
       = Throw "UNIQUE constraint failed: nodes.ref".
Proof. do 2 eexists. split; reflexivity. Qed.

(** Against C9 as stated: for the empty list of nodes, [add] acknowledges
    with the sync id of the call, while the [syncId] of the event of
    [getNodesEvent()] is the empty string. *)
Lemma add_nothing_counterexample :
  let ns : list (DocStore.DiffNode bool bool Num) := [] in
  DocStore.is_order_by sql_num_leb order_by
  /\ NoDup (DocStore.ref <$> ns)
  /\ Forall (fun n => DocStore.parents_kept n
                      /\ DocStore.json_serializable (DocStore.delta n)
                      /\ DocStore.json_serializable (DocStore.editMetadata n))
            ns
  /\ exists ack db ev,
       Sample.add ns timestamp DocStore.empty = Ok (ack, db)
       /\ DocStore.ack_syncId ack = timestamp
       /\ Sample.getNodesEvent None db = Ok ev
       /\ DocStore.ev_syncId ev = ""
       /\ DocStore.ev_syncId ev <> DocStore.ack_syncId ack.
Proof.
  split; [exact sample_order_by|].
  split; [constructor|]. split; [constructor|].
  do 3 eexists. repeat split. discriminate.
Qed.

(** *** The further properties on the sample instance *)

Lemma store7_reachable : MemoryStore.reachable close close store7.
Proof. exists "doc", "store", true. eexists. reflexivity. Defined.

Lemma reachable_refs_NoDup_witness :
  MemoryStore.reachable close close store7
  /\ NoDup (MemoryStore.ref <$> MemoryStore.commits store7)
  /\ (commit_by "v" "b"
      ∉ MemoryStore.commits
          (MemoryStore.run close close store7
             [MemoryStore.AddCommits [commit_by "v" "b"] (Some "r2")]))
  /\ commit "x"
     ∈ MemoryStore.commits
         (MemoryStore.run close close store7
            [MemoryStore.AddCommits
               [commit "a"; commit "x"; commit_by "v" "x"] None])
  /\ commit_by "v" "x"
     ∉ MemoryStore.commits
         (MemoryStore.run close close store7
            [MemoryStore.AddCommits
               [commit "a"; commit "x"; commit_by "v" "x"] None]).
Proof.
  destruct (reachable_refs_NoDup close close store7 store7_reachable)
    as (Hnd & _ & Hkept & Hfirst).
  split; [exact store7_reachable|]. split; [exact Hnd|]. split.
  - intros Hin.
    assert (Heq : commit_by "v" "b" = commit "b").
    { apply (Hkept [MemoryStore.AddCommits [commit_by "v" "b"] (Some "r2")]);
        [|exact Hin|reflexivity].
      apply (list_elem_of_lookup_2 _ 1). vm_compute. reflexivity. }
    discriminate Heq.
  - destruct (Hfirst [commit "a"] (commit "x") [commit_by "v" "x"] None []
                (commit_by "v" "x")) as [Hx Honly]; [by_computation..|].
    split; [exact Hx|].
    intros Hin. specialize (Honly Hin eq_refl). discriminate Honly.
Defined.

Lemma commits_append_only_witness :
  let calls := [MemoryStore.AddCommits [commit "b"; commit "h"] (Some "r8");
                MemoryStore.Shutdown] in
  MemoryStore.commits store7 !! 1 = Some (commit "b")
  /\ MemoryStore.commits (run store7 calls) !! 1 = Some (commit "b")
  /\ (2, commit "b") ∈ MemoryStore.localSyncIds (run store7 calls).
Proof.
  intros calls.
  assert (H : MemoryStore.commits store7 !! 1 = Some (commit "b"))
    by reflexivity.
  split; [exact H|].
  destruct (commits_append_only close close store7 calls 1 (commit "b") H)
    as (H1 & H2 & _).
  split; [exact H1 | exact H2].
Defined.

Lemma addCommits_ack_refs_witness :
  NoDup (MemoryStore.ref <$> [commit "b"; commit "x"])
  /\ exists ack s',
       MemoryStore.addCommits [commit "b"; commit "x"] None store7
       = Ok (ack, s')
       /\ MemoryStore.ack_refs ack = ["b"; "x"].
Proof.
  assert (H : NoDup (MemoryStore.ref <$> [commit "b"; commit "x"]))
    by by_computation.
  split; [exact H|].
  destruct (addCommits_ack_refs [commit "b"; commit "x"] None store7)
    as (ack & s' & Hadd & _ & _ & Hrefs).
  exists ack, s'. split; [exact Hadd | exact (Hrefs H)].
Defined.

Lemma getLocalCommitsEvent_any_cursor_witness :
  MemoryStore.getSyncCounter "" = None
  /\ MemoryStore.getSyncCounter "-2" = Some (-2)%Z
  /\ exists ev ev',
       MemoryStore.getLocalCommitsEvent (Some "") store7 = Ok (ev, store7)
       /\ MemoryStore.ev_commits ev = MemoryStore.commits store7
       /\ MemoryStore.getLocalCommitsEvent (Some "-2") store7
          = Ok (ev', store7)
       /\ MemoryStore.ev_commits ev' = [commit "f"; commit "g"].
Proof.
  assert (H1 : MemoryStore.getSyncCounter "" = None) by reflexivity.
  assert (H2 : MemoryStore.getSyncCounter "-2" = Some (-2)%Z) by reflexivity.
  split; [exact H1|]. split; [exact H2|].
  destruct (getLocalCommitsEvent_any_cursor "" store7)
    as (ev & Hev & Hall & _).
  destruct (getLocalCommitsEvent_any_cursor "-2" store7)
    as (ev' & Hev' & _ & _ & Hlast).
  exists ev, ev'. split; [exact Hev|]. split; [exact (Hall H1)|].
  split; [exact Hev'|]. rewrite (Hlast _ H2 eq_refl). reflexivity.
Defined.

Lemma getRemote_offline_or_registered_witness :
  MemoryStore.online store0 = true
  /\ MemoryStore.online (run store0 [MemoryStore.SetOnline false]) = false
  /\ MemoryStore.getRemote false (run store0 [MemoryStore.SetOnline false])
     = Throw "offline"
  /\ exists s',
       MemoryStore.bind (MemoryStore.getRemote false) (fun _ => shutdown) store0
       = Ok (tt, s')
       /\ MemoryStore.remotes s' = [true].
Proof.
  assert (H1 : MemoryStore.online store0 = true) by reflexivity.
  assert (H2 : MemoryStore.online (run store0 [MemoryStore.SetOnline false])
               = false) by reflexivity.
  split; [exact H1|]. split; [exact H2|].
  split.
  - exact (proj1 (proj1 (getRemote_offline_or_registered close close false
                           (run store0 [MemoryStore.SetOnline false])) H2)).
  - destruct (proj2 (getRemote_offline_or_registered close close false store0)
                H1) as (s' & Hs' & Hremotes & _).
    exists s'. split; [exact Hs' | exact Hremotes].
Defined.



Lemma acknowledge_first_batch_witness :
  MemoryStore.reachable close close store7
  /\ exists s',
       MemoryStore.acknowledgeCommits
         (MemoryStore.ref <$> take 5 (MemoryStore.yielded store7)) "r2" store7
       = Ok (tt, s')
       /\ MemoryStore.yielded s' = [commit "g"].
Proof.
  split; [exact store7_reachable|].
  destruct (acknowledge_first_batch close close store7 "r2" store7_reachable)
    as (s' & Hack & Hrest).
  exists s'. split; [exact Hack|]. rewrite Hrest. reflexivity.
Defined.

Lemma addCommits_known_is_acknowledge_witness :
  (forall c, c ∈ [commit "a"; commit "c"] ->
             MemoryStore.ref c ∈ MemoryStore.localCommitRefs store7)
  /\ MemoryStore.state_after
       (MemoryStore.addCommits [commit "a"; commit "c"] (Some "r3")) store7
     = MemoryStore.state_after
         (MemoryStore.acknowledgeCommits ["a"; "c"] "r3") store7.
Proof.
  assert (H : forall c, c ∈ [commit "a"; commit "c"] ->
                MemoryStore.ref c ∈ MemoryStore.localCommitRefs store7).
  { intros c [->|[->|Hc]%elem_of_cons]%elem_of_cons;
      [by_computation | by_computation | inversion Hc]. }
  split; [exact H|].
  exact (addCommits_known_is_acknowledge [commit "a"; commit "c"] "r3"
           store7 H).
Defined.

Lemma addCommits_pending_witness :
  (MemoryStore.ref (commit "h") ∉ MemoryStore.localCommitRefs store7)
  /\ (MemoryStore.ref (commit "h") ∉ MemoryStore.syncedCommits store7)
  /\ MemoryStore.yielded
       (MemoryStore.state_after
          (MemoryStore.addCommits [commit "h"] None) store7)
     = MemoryStore.yielded store7 ++ [commit "h"].
Proof.
  assert (H1 : MemoryStore.ref (commit "h")
               ∉ MemoryStore.localCommitRefs store7) by by_computation.
  assert (H2 : MemoryStore.ref (commit "h")
               ∉ MemoryStore.syncedCommits store7) by by_computation.
  split; [exact H1|]. split; [exact H2|].
  exact (proj2 (addCommits_pending [commit "h"] store7)
           (commit "h") eq_refl H1 H2).
Defined.

Lemma db1_added :
  exists ack, Sample.add batch1 timestamp DocStore.empty = Ok (ack, db1).
Proof. eexists. reflexivity. Defined.

Lemma db2_added : exists ack, Sample.add batch2 later db1 = Ok (ack, db2).
Proof. eexists. reflexivity. Defined.

Lemma sample_text_keys :
  Forall (fun r => exists k, DocStore.row_remoteSyncId r = DocStore.VText k)
         (DocStore.nodes db2).
Proof. repeat constructor; eexists; reflexivity. Defined.

Lemma add_appends_witness :
  exists ack,
    Sample.add batch2 later db1 = Ok (ack, db2)
    /\ DocStore.ack_refs ack = ["c"]
    /\ NoDup (DocStore.row_ref <$> DocStore.nodes db2).
Proof.
  destruct db2_added as [ack Hadd]. exists ack. split; [exact Hadd|].
  destruct (add_appends numeric_affinity batch2 later db1 ack db2 Hadd)
    as (Hrefs & _ & _ & Hkey).
  split; [exact Hrefs|]. apply Hkey. by_computation.
Defined.

Lemma add_returns_iff_witness :
  Forall (fun n => is_throw (DocStore.insert_params numeric_affinity later n)
                   = false) (batch2 ++ batch1)
  /\ is_throw (Sample.add (batch2 ++ batch1) later db1) = true.
Proof.
  assert (H : Forall (fun n =>
                is_throw (DocStore.insert_params numeric_affinity later n)
                = false) (batch2 ++ batch1)) by (repeat constructor).
  split; [exact H|].
  destruct (is_throw (Sample.add (batch2 ++ batch1) later db1)) eqn:Hthrow;
    [reflexivity|].
  apply (add_returns_iff numeric_affinity (batch2 ++ batch1) later db1 H)
    in Hthrow as [_ Hfresh].
  exfalso. apply (Hfresh (node "a" None (Some true))).
  - apply list_elem_of_further, list_elem_of_here.
  - apply list_elem_of_here.
Defined.

Lemma add_app_witness :
  exists mid last,
    Sample.add batch1 timestamp DocStore.empty
    = Ok ({| DocStore.ack_refs := ["a"; "b"];
             DocStore.ack_syncId := timestamp |}, mid)
    /\ Sample.add batch2 timestamp mid
       = Ok ({| DocStore.ack_refs := ["c"];
                DocStore.ack_syncId := timestamp |}, last)
    /\ Sample.add (batch1 ++ batch2) timestamp DocStore.empty
       = Ok ({| DocStore.ack_refs := ["a"; "b"; "c"];
                DocStore.ack_syncId := timestamp |}, last).
Proof.
  assert (H1 : Sample.add batch1 timestamp DocStore.empty
               = Ok ({| DocStore.ack_refs := ["a"; "b"];
                        DocStore.ack_syncId := timestamp |}, db1))
    by reflexivity.
  assert (H2 : exists last,
             Sample.add batch2 timestamp db1
             = Ok ({| DocStore.ack_refs := ["c"];
                      DocStore.ack_syncId := timestamp |}, last))
    by (eexists; reflexivity).
  destruct H2 as (last & H2).
  exists db1, last. split; [exact H1|]. split; [exact H2|].
  exact (add_app numeric_affinity batch1 batch2 timestamp DocStore.empty
           _ db1 _ last H1 H2).
Defined.


Lemma getNodesEvent_since_batch_witness :
  DocStore.is_order_by sql_num_leb order_by
  /\ numeric_affinity timestamp = None /\ numeric_affinity later = None
  /\ String.ltb timestamp later = true
  /\ batch2 <> []
  /\ NoDup (DocStore.ref <$> (batch1 ++ batch2))
  /\ exists ev,
       Sample.getNodesEvent (Some timestamp) db2 = Ok ev
       /\ DocStore.ev_nodes ev
          ≡ₚ DocStore.stored_as (DocStore.VText later) <$> batch2
       /\ DocStore.ev_syncId ev = later.
Proof.
  assert (H1 : numeric_affinity timestamp = None) by reflexivity.
  assert (H2 : numeric_affinity later = None) by reflexivity.
  assert (H3 : String.ltb timestamp later = true) by reflexivity.
  assert (H4 : batch2 <> []) by discriminate.
  assert (H5 : NoDup (DocStore.ref <$> (batch1 ++ batch2)))
    by by_computation.
  assert (H6 : Forall (fun n =>
                 DocStore.parents_kept n
                 /\ DocStore.json_serializable (DocStore.delta n)
                 /\ DocStore.json_serializable (DocStore.editMetadata n))
                (batch1 ++ batch2)).
  { repeat constructor; try discriminate;
      cbn; eexists; split; reflexivity. }
  split; [exact sample_order_by|].
  split; [exact H1|]. split; [exact H2|]. split; [exact H3|].
  split; [exact H4|]. split; [exact H5|].
  destruct (getNodesEvent_since_batch numeric_affinity sql_num_leb js_num_gtb
              ToNumber num_toString order_by batch1 batch2 timestamp later
              sample_order_by H1 H2 H3 H4 H5 H6)
    as (a1 & d1 & a2 & d2 & ev & Hadd1 & Hadd2 & Hget & Hnodes & Hsync).
  destruct db1_added as [b1 Hb1].
  assert (Hd1 : Ok (a1, d1) = Ok (b1, db1))
    by (rewrite <- Hb1; symmetry; exact Hadd1).
  injection Hd1 as _ ->.
  destruct db2_added as [b2 Hb2].
  assert (Hd2 : Ok (a2, d2) = Ok (b2, db2))
    by (rewrite <- Hb2; symmetry; exact Hadd2).
  injection Hd2 as _ ->.
  exists ev. split; [exact Hget|]. split; [exact Hnodes | exact Hsync].
Defined.

Lemma getNodesEvent_nothing_new_witness :
  DocStore.is_order_by sql_num_leb order_by
  /\ numeric_affinity later = None
  /\ Sample.getNodesEvent (Some later) db2
     = Ok {| DocStore.ev_nodes := []; DocStore.ev_syncId := "" |}.
Proof.
  assert (H : numeric_affinity later = None) by reflexivity.
  split; [exact sample_order_by|]. split; [exact H|].
  apply (getNodesEvent_nothing_new numeric_affinity sql_num_leb js_num_gtb
           ToNumber num_toString order_by later db2 sample_order_by H).
  repeat constructor; eexists; split; reflexivity.
Defined.

Lemma getNodesEvent_syncId_greatest_witness :
  exists ev,
    Sample.getNodesEvent None db2 = Ok ev
    /\ DocStore.ev_syncId ev = later
    /\ Forall (fun n => exists k,
                 DocStore.remoteSyncId n = Some (DocStore.VText k)
                 /\ String.leb k later = true) (DocStore.ev_nodes ev).
Proof.
  assert (H : exists ev, Sample.getNodesEvent None db2 = Ok ev
                         /\ DocStore.ev_syncId ev = later)
    by (eexists; split; reflexivity).
  destruct H as (ev & Hev & Hsync). exists ev.
  split; [exact Hev|]. split; [exact Hsync|]. rewrite <- Hsync.
  exact (proj1 (getNodesEvent_syncId_greatest numeric_affinity sql_num_leb
                  js_num_gtb ToNumber num_toString order_by None db2 ev
                  sample_order_by sample_text_keys Hev)).
Defined.

Lemma getNodesEvent_refs_witness :
  exists ev,
    Sample.getNodesEvent None db2 = Ok ev
    /\ DocStore.ref <$> DocStore.ev_nodes ev ≡ₚ ["a"; "b"; "c"].
Proof.
  assert (H : exists ev, Sample.getNodesEvent None db2 = Ok ev)
    by (eexists; reflexivity).
  destruct H as [ev Hev]. exists ev. split; [exact Hev|].
  exact (proj2 (getNodesEvent_refs numeric_affinity sql_num_leb js_num_gtb
                  ToNumber num_toString order_by None db2 ev
                  sample_order_by Hev) eq_refl).
Defined.

End Samples.
